(** * HabitStore: a file-backed store of habit records

    Shallow embedding of [src/store/HabitStore.ts] and [src/store/types.ts],
    and the properties of the store that the specification states.

    Conventions of the embedding.
    - A JavaScript array of strings lives in a heap of arrays and is named
      by a reference: [logCompletion] pushes onto the array that the stored
      record holds, which may be the very array a caller handed to
      [addHabit] or [updateHabit].  Habit objects themselves are never
      mutated by the store after they are built (a new object replaces the
      old one), so they are records by value.
    - A JS [Map] is an association list in insertion order.
    - The file system, the random source behind [randomUUID] and the clock
      are fields of the [World] that every operation receives and returns.
    - An [async] method is run to completion: it returns its result or the
      exception it threw, with the store and the world as they are then. *)

From Stdlib Require Import NArith ZArith Ascii String.
From stdpp Require Import base option list strings gmap.

Open Scope string_scope.
Open Scope list_scope.

(** ** Data model ([types.ts]) *)

Inductive Frequency := daily | weekly | custom.

(** [Habit_ C] is the interface [Habit] with the representation [C] of the
    [completions] array left open: a reference in memory, the list of its
    elements in a persisted document.  [description = None] stands for a
    property that is absent (or holds [undefined]). *)
Record Habit_ (C : Type) := mkHabit {
  id : string;
  name : string;
  description : option string;
  frequency : Frequency;
  completions : C;
  createdAt : string
}.
Arguments mkHabit {C}.
Arguments id {C}.
Arguments name {C}.
Arguments description {C}.
Arguments frequency {C}.
Arguments completions {C}.
Arguments createdAt {C}.

(** References to JS arrays of strings. *)
Definition ref := nat.

(** A habit object in memory. *)
Definition Habit := Habit_ ref.
(** A habit with its completions read out: what a JSON document holds. *)
Definition HabitData := Habit_ (list string).

Global Instance Frequency_eq_dec : EqDecision Frequency.
Proof. solve_decision. Defined.
Global Instance Habit_eq_dec {C} `{EqDecision C} : EqDecision (Habit_ C).
Proof. solve_decision. Defined.

(** ** JS [Map<string, Habit>]: insertion-ordered association list *)

Module JsMap.
Section ops.
Context {V : Type}.
Definition t := list (string * V).

Fixpoint get (k : string) (m : t) : option V :=
  match m with
  | [] => None
  | (k', v) :: m' => if decide (k' = k) then Some v else get k m'
  end.

Definition has (k : string) (m : t) : bool :=
  match get k m with Some _ => true | None => false end.

(** [m.set(k, v)]: an existing key keeps its place, a new one goes last. *)
Fixpoint set (k : string) (v : V) (m : t) : t :=
  match m with
  | [] => [(k, v)]
  | (k', v') :: m' =>
      if decide (k' = k) then (k, v) :: m' else (k', v') :: set k v m'
  end.

(** [m.delete(k)] *)
Fixpoint delete (k : string) (m : t) : t :=
  match m with
  | [] => []
  | (k', v') :: m' =>
      if decide (k' = k) then delete k m' else (k', v') :: delete k m'
  end.

Definition keys (m : t) : list string := m.*1.
(** [m.values()] *)
Definition values (m : t) : list V := m.*2.

(** [new Map(entries)]: the entries are set one after the other. *)
Definition of_entries (es : list (string * V)) : t :=
  foldl (fun m e => set e.1 e.2 m) [] es.
End ops.
Arguments t : clear implicits.
End JsMap.

(** ** JSON values and the persisted document *)

#[warnings="-register-all"]
Inductive json :=
  | JNull
  | JBool (b : bool)
  | JNum (n : Z)
  | JStr (s : string)
  | JArr (items : list json)
  | JObj (props : list (string * json)).

(** The text of a file, kept up to what [JSON.parse] makes of it: a text
    that [JSON.parse] rejects, or a text that it accepts together with the
    value it yields.  [JSON.stringify] of a value built from strings, arrays
    and plain objects produces a text that parses back to that value. *)
Inductive content :=
  | Unparsable (raw : string)
  | Parsable (doc : json).

Definition JSON_parse (c : content) : option json :=
  match c with
  | Unparsable _ => None
  | Parsable doc => Some doc
  end.

Definition JSON_stringify (v : json) : content := Parsable v.

Definition Frequency_to_string (f : Frequency) : string :=
  match f with daily => "daily" | weekly => "weekly" | custom => "custom" end.

Definition Frequency_of_string (s : string) : option Frequency :=
  if decide (s = "daily") then Some daily
  else if decide (s = "weekly") then Some weekly
  else if decide (s = "custom") then Some custom
  else None.

(** The JSON value of a habit object.  [JSON.stringify] leaves out a
    property that is absent or [undefined]. *)
Definition Habit_to_json (h : HabitData) : json :=
  JObj ([ ("id", JStr (id h));
          ("name", JStr (name h));
          ("frequency", JStr (Frequency_to_string (frequency h)));
          ("completions", JArr (JStr <$> completions h));
          ("createdAt", JStr (createdAt h)) ]
        ++ match description h with
           | Some d => [("description", JStr d)]
           | None => []
           end).

(** [{ habits: [...] }], the interface [HabitsData]. *)
Definition HabitsData_to_json (hs : list HabitData) : json :=
  JObj [("habits", JArr (Habit_to_json <$> hs))].

Fixpoint assoc (k : string) (ps : list (string * json)) : option json :=
  match ps with
  | [] => None
  | (k', v) :: ps' => if String.eqb k' k then Some v else assoc k ps'
  end.

Definition as_string (v : json) : option string :=
  match v with JStr s => Some s | _ => None end.

Fixpoint strings_of (items : list json) : option (list string) :=
  match items with
  | [] => Some []
  | v :: items' =>
      s ← as_string v; ss ← strings_of items'; Some (s :: ss)
  end.

(** A property read at type [string[]]. *)
Definition as_strings (p : option json) : option (list string) :=
  match p with
  | Some (JArr items) => strings_of items
  | _ => None
  end.

(** A property read at type [string | undefined]. *)
Definition as_optional_string (p : option json) : option (option string) :=
  match p with
  | None => Some None
  | Some (JStr d) => Some (Some d)
  | Some _ => None
  end.

(** A parsed value read at the declared type [Habit] (the source casts the
    parsed document to [HabitsData] and checks nothing below the [habits]
    array).  [None]: the value is not an object of that shape. *)
Definition Habit_of_json (v : json) : option HabitData :=
  match v with
  | JObj ps =>
      i ← assoc "id" ps ≫= as_string;
      n ← assoc "name" ps ≫= as_string;
      fs ← assoc "frequency" ps ≫= as_string;
      f ← Frequency_of_string fs;
      cs ← as_strings (assoc "completions" ps);
      t ← assoc "createdAt" ps ≫= as_string;
      d ← as_optional_string (assoc "description" ps);
      Some (mkHabit i n d f cs t)
  | _ => None
  end.

Fixpoint habits_of (items : list json) : option (list HabitData) :=
  match items with
  | [] => Some []
  | v :: items' =>
      h ← Habit_of_json v; hs ← habits_of items'; Some (h :: hs)
  end.

(** ** Exceptions and results *)

Inductive exn :=
  | Error (message : string)
  | ErrnoException (code : string)
  | TypeError (message : string).

(** [Untyped]: the run went on with a value outside its declared type (an
    element of the persisted [habits] array that is no [Habit]); the typed
    embedding does not follow it further. *)
Inductive result (A : Type) :=
  | Ok (a : A)
  | Throw (e : exn)
  | Untyped.
Arguments Ok {A}.
Arguments Throw {A}.
Arguments Untyped {A}.

(** [(err as NodeJS.ErrnoException).code] *)
Definition exn_code (e : exn) : option string :=
  match e with ErrnoException c => Some c | _ => None end.

(** ** The world outside the store *)

Inductive syscall :=
  | Read (path : string)
  | MkdirDirname (path : string)
  | Write (path : string)
  | Rename (from to : string).

(** - [arrays]: the JS heap of string arrays;
    - [files]: the regular files of the file system, by path;
    - [fault]: the storage failures of the moment: the error code with which
      a call fails, if it does;
    - [entropy], [draws]: the random source and how much of it was used;
    - [now]: the clock, as [new Date().toISOString()] renders it. *)
Record World := mkWorld {
  arrays : gmap ref (list string);
  files : gmap string content;
  fault : syscall → option string;
  entropy : nat → N;
  draws : nat;
  now : string
}.

Record HabitStore := mkStore {
  habits : JsMap.t Habit;
  filePath : string
}.

(** ** The monad of store methods: state and exceptions *)

Definition M (A : Type) : Type :=
  HabitStore → World → result A * HabitStore * World.

Definition ret {A} (a : A) : M A := fun st w => (Ok a, st, w).

Definition bind {A B} (c : M A) (k : A → M B) : M B :=
  fun st w =>
    match c st w with
    | (Ok a, st', w') => k a st' w'
    | (Throw e, st', w') => (Throw e, st', w')
    | (Untyped, st', w') => (Untyped, st', w')
    end.

Definition throw {A} (e : exn) : M A := fun st w => (Throw e, st, w).

(** [try { c } catch (err) { ... }]: the value of [c], or the exception it
    threw, handed over to what follows. *)
Definition try {A} (c : M A) : M (A + exn) :=
  fun st w =>
    match c st w with
    | (Ok a, st', w') => (Ok (inl a), st', w')
    | (Throw err, st', w') => (Ok (inr err), st', w')
    | (Untyped, st', w') => (Untyped, st', w')
    end.

Declare Scope store_scope.
Delimit Scope store_scope with store.
Notation "x <- c1 ;; c2" := (bind c1 (fun x => c2))
  (at level 100, c1 at next level, right associativity) : store_scope.
Notation "c1 ;; c2" := (bind c1 (fun _ => c2))
  (at level 100, right associativity) : store_scope.
Open Scope store_scope.

Definition this_habits : M (JsMap.t Habit) := fun st w => (Ok (habits st), st, w).
Definition this_filePath : M string := fun st w => (Ok (filePath st), st, w).
Definition set_habits (m : JsMap.t Habit) : M unit :=
  fun st w => (Ok tt, mkStore m (filePath st), w).

(** *** The JS heap of arrays *)

(** The elements of the array behind a reference. *)
Definition deref (w : World) (r : ref) : list string :=
  default [] (arrays w !! r).

Definition with_arrays (a : gmap ref (list string)) (w : World) : World :=
  mkWorld a (files w) (fault w) (entropy w) (draws w) (now w).

Definition with_files (f : gmap string content) (w : World) : World :=
  mkWorld (arrays w) f (fault w) (entropy w) (draws w) (now w).

(** An array literal: a new array, at a reference not in use. *)
Definition new_array (xs : list string) : M ref :=
  fun st w =>
    let r := fresh (dom (arrays w)) in
    (Ok r, st, with_arrays (<[r := xs]> (arrays w)) w).

Definition read_array (r : ref) : M (list string) :=
  fun st w => (Ok (deref w r), st, w).

(** [a.push(x)] *)
Definition push (r : ref) (x : string) : M unit :=
  fun st w => (Ok tt, st, with_arrays (<[r := deref w r ++ [x]]> (arrays w)) w).

(** [a.includes(x)] on an array of strings *)
Definition includes (x : string) (xs : list string) : bool :=
  bool_decide (x ∈ xs).

(** *** [fs.promises] *)

Definition readFile (p : string) : M content :=
  fun st w =>
    match fault w (Read p) with
    | Some code => (Throw (ErrnoException code), st, w)
    | None =>
        match files w !! p with
        | Some c => (Ok c, st, w)
        | None => (Throw (ErrnoException "ENOENT"), st, w)
        end
    end.

(** [fs.mkdir(dirname(p), { recursive: true })].  Directories are not part
    of [files]: the call succeeds or fails, as the storage decides. *)
Definition mkdir_dirname (p : string) : M unit :=
  fun st w =>
    match fault w (MkdirDirname p) with
    | Some code => (Throw (ErrnoException code), st, w)
    | None => (Ok tt, st, w)
    end.

Definition writeFile (p : string) (c : content) : M unit :=
  fun st w =>
    match fault w (Write p) with
    | Some code => (Throw (ErrnoException code), st, w)
    | None => (Ok tt, st, with_files (<[p := c]> (files w)) w)
    end.

Definition rename (from to : string) : M unit :=
  fun st w =>
    match fault w (Rename from to) with
    | Some code => (Throw (ErrnoException code), st, w)
    | None =>
        match files w !! from with
        | Some c => (Ok tt, st, with_files (<[to := c]> (delete from (files w))) w)
        | None => (Throw (ErrnoException "ENOENT"), st, w)
        end
    end.

(** *** [crypto.randomUUID] and the clock *)

Definition hex_digit (n : N) : ascii :=
  ascii_of_N (if (n <? 10)%N then 48 + n else 87 + n)%N.

Definition hex_byte (b : N) : string :=
  String (hex_digit (b / 16)%N) (String (hex_digit (b mod 16)%N) "").

(** Byte [i] of 16, the most significant first. *)
Definition byte_of (bits : N) (i : N) : N :=
  N.land (N.shiftr bits (8 * (15 - i))) 255.

(** A version 4 UUID from 128 random bits: 8-4-4-4-12 hexadecimal digits,
    the version nibble set to 4 and the variant bits to 10. *)
Definition uuid_of_bits (bits : N) : string :=
  let b := byte_of bits in
  hex_byte (b 0%N) +:+ hex_byte (b 1%N) +:+ hex_byte (b 2%N)
  +:+ hex_byte (b 3%N)
  +:+ "-" +:+ hex_byte (b 4%N) +:+ hex_byte (b 5%N)
  +:+ "-" +:+ hex_byte (N.lor (N.land (b 6%N) 15) 64) +:+ hex_byte (b 7%N)
  +:+ "-" +:+ hex_byte (N.lor (N.land (b 8%N) 63) 128) +:+ hex_byte (b 9%N)
  +:+ "-" +:+ hex_byte (b 10%N) +:+ hex_byte (b 11%N) +:+ hex_byte (b 12%N)
  +:+ hex_byte (b 13%N) +:+ hex_byte (b 14%N) +:+ hex_byte (b 15%N).

Definition randomUUID : M string :=
  fun st w =>
    (Ok (uuid_of_bits (entropy w (draws w))), st,
     mkWorld (arrays w) (files w) (fault w) (entropy w) (S (draws w)) (now w)).

(** [new Date().toISOString()] *)
Definition Date_toISOString : M string :=
  fun st w => (Ok (now w), st, w).

(** ** The store ([HabitStore.ts]) *)

Definition dquote : string := String "034"%char "".

(** [data.habits]: [None] is [undefined]; reading a property of [null]
    throws. *)
Definition get_habits (data : json) : result (option json) :=
  match data with
  | JNull =>
      Throw (TypeError "Cannot read properties of null (reading 'habits')")
  | JObj ps => Ok (assoc "habits" ps)
  | _ => Ok None
  end.

Definition lift {A} (r : result A) : M A := fun st w => (r, st, w).

Definition is_null (v : json) : bool :=
  match v with JNull => true | _ => false end.

(** [data.habits.map((h) => [h.id, h])]: reading [h.id] throws when an
    element is [null]; the other elements are taken at their declared type
    [Habit], their [completions] arrays being new arrays. *)
Fixpoint entries_of (hs : list HabitData) : M (list (string * Habit)) :=
  match hs with
  | [] => ret []
  | h :: hs' =>
      r <- new_array (completions h) ;;
      es <- entries_of hs' ;;
      ret ((id h, mkHabit (id h) (name h) (description h) (frequency h) r
                    (createdAt h)) :: es)
  end.

Definition habits_entries (items : list json) : M (list (string * Habit)) :=
  if existsb is_null items then
    throw (TypeError "Cannot read properties of null (reading 'id')")
  else
    match habits_of items with
    | Some hs => entries_of hs
    | None => lift Untyped
    end.

Definition load : M unit :=
  p <- this_filePath ;;
  r <- try (readFile p) ;;
  match r with
  | inr err =>
      if decide (exn_code err = Some "ENOENT") then set_habits []
      else throw err
  | inl raw =>
      match JSON_parse raw with
      | None => throw (Error ("Corrupt data file at " +:+ p +:+ ": invalid JSON"))
      | Some data =>
          hf <- lift (get_habits data) ;;
          match hf with
          | Some (JArr items) =>
              es <- habits_entries items ;;
              set_habits (JsMap.of_entries es)
          | _ =>
              throw (Error ("Corrupt data file at " +:+ p +:+ ": " +:+ dquote
                            +:+ "habits" +:+ dquote +:+ " must be an array"))
          end
      end
  end.

(** A habit object with its completions read out of the heap, as
    [JSON.stringify] sees it. *)
Definition snapshot (w : World) (h : Habit) : HabitData :=
  mkHabit (id h) (name h) (description h) (frequency h)
          (deref w (completions h)) (createdAt h).

Definition stringify_habits (hs : list Habit) : M content :=
  fun st w => (Ok (JSON_stringify (HabitsData_to_json (snapshot w <$> hs))), st, w).

Definition save : M unit :=
  m <- this_habits ;;
  json <- stringify_habits (JsMap.values m) ;;
  p <- this_filePath ;;
  let tmp := p +:+ ".tmp" in
  mkdir_dirname p ;;
  writeFile tmp json ;;
  rename tmp p.

(** [HabitStore.create(filePath)] *)
Definition create (path : string) (w : World) : result unit * HabitStore * World :=
  load (mkStore [] path) w.

(** The argument of [addHabit]: [name] and [frequency] are required, the
    other properties optional.  An array is handed over by reference. *)
Record HabitAttrs := mkAttrs {
  attrs_id : option string;
  attrs_name : string;
  attrs_description : option string;
  attrs_frequency : Frequency;
  attrs_completions : option ref;
  attrs_createdAt : option string
}.

Definition addHabit (attrs : HabitAttrs) : M Habit :=
  i <- match attrs_id attrs with
       | Some i => ret i
       | None => randomUUID
       end ;;
  c <- match attrs_completions attrs with
       | Some c => ret c
       | None => new_array []
       end ;;
  t <- match attrs_createdAt attrs with
       | Some t => ret t
       | None => Date_toISOString
       end ;;
  let habit :=
    mkHabit i (attrs_name attrs) (attrs_description attrs)
            (attrs_frequency attrs) c t in
  m <- this_habits ;;
  set_habits (JsMap.set (id habit) habit m) ;;
  save ;;
  ret habit.

Definition getHabit (i : string) : M (option Habit) :=
  m <- this_habits ;; ret (JsMap.get i m).

Definition getAllHabits : M (list Habit) :=
  m <- this_habits ;; ret (JsMap.values m).

(** [Partial<Habit>]: a property is absent ([None]) or carries a value of
    its type; [patch_description = Some None] is [{ description: undefined }]. *)
Record HabitPatch := mkPatch {
  patch_id : option string;
  patch_name : option string;
  patch_description : option (option string);
  patch_frequency : option Frequency;
  patch_completions : option ref;
  patch_createdAt : option string
}.

(** [{ ...existing, ...patch, id }] *)
Definition merge (existing : Habit) (patch : HabitPatch) (i : string) : Habit :=
  mkHabit i
          (default (name existing) (patch_name patch))
          (default (description existing) (patch_description patch))
          (default (frequency existing) (patch_frequency patch))
          (default (completions existing) (patch_completions patch))
          (default (createdAt existing) (patch_createdAt patch)).

Definition updateHabit (i : string) (patch : HabitPatch) : M Habit :=
  m <- this_habits ;;
  match JsMap.get i m with
  | None => throw (Error ("Habit not found: " +:+ i))
  | Some existing =>
      let updated := merge existing patch i in
      set_habits (JsMap.set i updated m) ;;
      save ;;
      ret updated
  end.

Definition deleteHabit (i : string) : M bool :=
  m <- this_habits ;;
  if negb (JsMap.has i m) then ret false
  else
    set_habits (JsMap.delete i m) ;;
    save ;;
    ret true.

Definition logCompletion (i : string) (date : string) : M unit :=
  m <- this_habits ;;
  match JsMap.get i m with
  | None => throw (Error ("Habit not found: " +:+ i))
  | Some habit =>
      cs <- read_array (completions habit) ;;
      if negb (includes date cs) then
        push (completions habit) date ;;
        save
      else ret tt
  end.

(** ** Vocabulary of the specification *)

(** The mapping with every record's completions read out of the heap. *)
Definition view (w : World) (m : JsMap.t Habit) : JsMap.t HabitData :=
  prod_map (fun k : string => k) (snapshot w) <$> m.

(** The representation invariant of the in-memory mapping: a [Map] holds a
    key once, and every record is filed under its own [id]. *)
Definition keyed (m : JsMap.t Habit) : Prop :=
  Forall (fun e => id e.2 = e.1) m.

Definition consistent (m : JsMap.t Habit) : Prop :=
  NoDup (JsMap.keys m) ∧ keyed m.

Global Instance keyed_dec m : Decision (keyed m).
Proof. unfold keyed. apply _. Defined.
Global Instance consistent_dec m : Decision (consistent m).
Proof. unfold consistent. apply _. Defined.

(** The document that [save] writes for the store as it is. *)
Definition document (st : HabitStore) (w : World) : content :=
  JSON_stringify (HabitsData_to_json (snapshot w <$> JsMap.values (habits st))).

(** The backing file holds the collection as it is in memory. *)
Definition persisted (st : HabitStore) (w : World) : Prop :=
  files w !! filePath st = Some (document st w).

(** The storage accepts the three calls of a [save] to path [p]. *)
Definition writable (p : string) (w : World) : Prop :=
  fault w (MkdirDirname p) = None
  ∧ fault w (Write (p +:+ ".tmp")) = None
  ∧ fault w (Rename (p +:+ ".tmp") p) = None.

(** The world after a [save] that went through. *)
Definition saved (st : HabitStore) (w : World) : World :=
  with_files (<[filePath st := document st w]>
                (delete (filePath st +:+ ".tmp") (files w))) w.

(** No record of the mapping has a date twice in its completions. *)
Definition dup_free (st : HabitStore) (w : World) : Prop :=
  Forall (fun e => NoDup (deref w (completions e.2))) (habits st).

Global Instance dup_free_dec st w : Decision (dup_free st w).
Proof. unfold dup_free. apply _. Defined.

(** How often [d] occurs in [xs]. *)
Definition occurrences (d : string) (xs : list string) : nat :=
  length (filter (fun x => x = d) xs).

(** The last record of a persisted sequence that carries the id [k]. *)
Definition last_with_id (k : string) (hs : list HabitData) : option HabitData :=
  last (filter (fun h => id h = k) hs).

(** What a message says about a path: the path occurs in it. *)
Definition names_path (message path : string) : Prop :=
  ∃ before after, message = before +:+ path +:+ after.

(** The store after a run, and the world after it. *)
Definition store_after {A} (x : result A * HabitStore * World) : HabitStore := x.1.2.
Definition world_after {A} (x : result A * HabitStore * World) : World := x.2.
Definition outcome {A} (x : result A * HabitStore * World) : result A := x.1.1.

Definition dup_free_after {A} (x : result A * HabitStore * World) : Prop :=
  dup_free (store_after x) (world_after x).

(** The calls that change a store, and the stores that calls can lead to
    from a newly constructed one, whatever the world does in between. *)
Inductive call :=
  | CallLoad
  | CallSave
  | CallAddHabit (attrs : HabitAttrs)
  | CallUpdateHabit (i : string) (patch : HabitPatch)
  | CallDeleteHabit (i : string)
  | CallLogCompletion (i date : string).

Definition exec (c : call) : M unit :=
  match c with
  | CallLoad => load
  | CallSave => save
  | CallAddHabit attrs => addHabit attrs ;; ret tt
  | CallUpdateHabit i patch => updateHabit i patch ;; ret tt
  | CallDeleteHabit i => deleteHabit i ;; ret tt
  | CallLogCompletion i date => logCompletion i date
  end.

Inductive reachable : HabitStore → Prop :=
  | reachable_new path : reachable (mkStore [] path)
  | reachable_exec st c w :
      reachable st → reachable (store_after (exec c st w)).

(** The two messages of a corrupt data file. *)
Definition corrupt_invalid_json (p : string) : exn :=
  Error ("Corrupt data file at " +:+ p +:+ ": invalid JSON").

Definition corrupt_not_array (p : string) : exn :=
  Error ("Corrupt data file at " +:+ p +:+ ": " +:+ dquote +:+ "habits"
         +:+ dquote +:+ " must be an array").

(** ** Sample data

    The record of the test suite ([HabitStore.test.ts]), a store that holds
    it and a world whose storage works. *)

Definition quiet : syscall → option string := fun _ => None.

Definition demo_world : World :=
  mkWorld {[ 0 := ["2024-01-01"] ]} ∅ quiet (fun n => N.of_nat n) 0
          "2024-03-15T08:00:00.000Z".

Definition demo_habit : Habit :=
  mkHabit "abc" "Run" None daily 0 "2024-01-01T00:00:00Z".

Definition demo_store : HabitStore :=
  mkStore [("abc", demo_habit)] "habits.json".

(** A persisted sequence in which the id "abc" comes twice, and a world
    whose backing file holds it. *)
Definition demo_records : list HabitData :=
  [ mkHabit "abc" "Run" None daily ["2024-01-01"] "2024-01-01T00:00:00Z";
    mkHabit "xyz" "Read" (Some "a chapter") weekly [] "2024-01-02T00:00:00Z";
    mkHabit "abc" "Run far" None weekly [] "2024-02-01T00:00:00Z" ].

Definition disk_world : World :=
  mkWorld ∅ {[ "habits.json" := JSON_stringify (HabitsData_to_json demo_records) ]}
          quiet (fun n => N.of_nat n) 0 "2024-03-15T08:00:00.000Z".

(** A world whose backing file holds the JSON text [null]. *)
Definition null_world : World :=
  mkWorld ∅ {[ "habits.json" := Parsable JNull ]}
          quiet (fun n => N.of_nat n) 0 "2024-03-15T08:00:00.000Z".

Definition demo_attrs : HabitAttrs :=
  mkAttrs None "Meditate" None daily None None.

Definition demo_patch : HabitPatch :=
  mkPatch None (Some "Swim laps") None (Some weekly) None None.

(** A patch that carries a [createdAt]. *)
Definition createdAt_patch : HabitPatch :=
  mkPatch None None None None None (Some "1999-12-31T00:00:00.000Z").

(** A caller's array that holds a date twice, handed to [addHabit]. *)
Definition twice_world : World :=
  mkWorld {[ 0 := ["2024-03-15"; "2024-03-15"] ]} ∅ quiet
          (fun n => N.of_nat n) 0 "2024-03-15T08:00:00.000Z".

Definition twice_attrs : HabitAttrs :=
  mkAttrs (Some "abc") "Run" None daily (Some 0) None.

Definition new_store : HabitStore := mkStore [] "habits.json".

(** Scripts of calls, as the test suite writes them: [x >>> k] goes on with
    [k] on the store and in the world that [x] left, if [x] returned. *)
Definition and_then {A B} (x : result A * HabitStore * World) (k : A → M B)
  : result B * HabitStore * World :=
  match x with
  | (Ok a, st, w) => k a st w
  | (Throw e, st, w) => (Throw e, st, w)
  | (Untyped, st, w) => (Untyped, st, w)
  end.

Notation "x >>> k" := (and_then x k) (at level 50, left associativity).

(** The world of a test: no file yet, and a file left by a previous run. *)
Definition empty_world : World :=
  mkWorld ∅ ∅ quiet (fun n => N.of_nat n) 0 "2024-03-15T08:00:00.000Z".

Definition file_world (c : content) : World :=
  mkWorld ∅ {[ "habits.json" := c ]} quiet (fun n => N.of_nat n) 0
          "2024-03-15T08:00:00.000Z".

Definition attrs_of (n : string) : HabitAttrs :=
  mkAttrs None n None daily None None.

(** What [getAllHabits] returns, with the completions read out. *)
Definition all_habits (x : result unit * HabitStore * World) : list HabitData :=
  snapshot (world_after x) <$> JsMap.values (habits (store_after x)).

(** ** Vocabulary of the further properties *)

(** The error code with which a [save] to [p] fails, if it does: that of
    the first of its three calls that the storage refuses. *)
Definition save_fault (p : string) (w : World) : option string :=
  match fault w (MkdirDirname p) with
  | Some code => Some code
  | None =>
      match fault w (Write (p +:+ ".tmp")) with
      | Some code => Some code
      | None => fault w (Rename (p +:+ ".tmp") p)
      end
  end.

(** The ids of a sequence of records in the order in which they first
    occur, those in [seen] left out. *)
Fixpoint first_ids (seen : list string) (hs : list HabitData) : list string :=
  match hs with
  | [] => []
  | h :: hs' =>
      if decide (id h ∈ seen) then first_ids seen hs'
      else id h :: first_ids (id h :: seen) hs'
  end.

(** The id that [addHabit] gives the record it builds. *)
Definition id_for (attrs : HabitAttrs) (w : World) : string :=
  default (uuid_of_bits (entropy w (draws w))) (attrs_id attrs).

(** A storage that has no room left: every write is refused. *)
Definition full_disk : syscall → option string :=
  fun c => match c with Write _ => Some "ENOSPC" | _ => None end.

Definition full_world : World :=
  mkWorld {[ 0 := ["2024-01-01"] ]} ∅ full_disk (fun n => N.of_nat n) 0
          "2024-03-15T08:00:00.000Z".

(** A storage that refuses to be read. *)
Definition denied_world : World :=
  mkWorld ∅ {[ "habits.json" := Parsable (JObj [("habits", JArr [])]) ]}
          (fun c => match c with Read _ => Some "EACCES" | _ => None end)
          (fun n => N.of_nat n) 0 "2024-03-15T08:00:00.000Z".

(** The world of [demo_store] once it is saved. *)
Definition synced_world : World := saved demo_store demo_world.

(** Two records that hold the same completions array. *)
Definition pair_store : HabitStore :=
  mkStore [ ("abc", demo_habit);
            ("xyz", mkHabit "xyz" "Read" None weekly 0 "2024-01-02T00:00:00Z") ]
          "habits.json".

(** * Properties *)

(** Running the first steps of a method: its definition and the monad's
    are unfolded, up to the first call whose outcome the world decides. *)
Ltac run_load := unfold load, bind, this_filePath, try, readFile; cbn.
Ltac run_save :=
  unfold save, bind, this_habits, stringify_habits, this_filePath,
    mkdir_dirname, writeFile, rename; cbn.

(** ** The insertion-ordered map *)

Section JsMap_facts.
Context {V : Type}.
Implicit Types (m : JsMap.t V) (k : string) (v : V).

Lemma get_set_eq k v m : JsMap.get k (JsMap.set k v m) = Some v.
Proof.
  induction m as [|[k' v'] m IH]; simpl.
  - by rewrite decide_True.
  - destruct (decide (k' = k)) as [->|Hne]; simpl.
    + by rewrite decide_True.
    + by rewrite decide_False.
Qed.

Lemma get_set_ne k k' v m :
  k ≠ k' → JsMap.get k' (JsMap.set k v m) = JsMap.get k' m.
Proof.
  intros Hne. induction m as [|[k0 v0] m IH]; simpl.
  - by rewrite decide_False.
  - destruct (decide (k0 = k)) as [->|Hk0]; simpl.
    + by rewrite !decide_False.
    + by rewrite IH.
Qed.

Lemma get_None k m : JsMap.get k m = None ↔ k ∉ JsMap.keys m.
Proof.
  unfold JsMap.keys. induction m as [|[k' v'] m IH]; simpl.
  - split; [intros _; apply not_elem_of_nil | done].
  - rewrite not_elem_of_cons. destruct (decide (k' = k)) as [->|Hne].
    + split; [done | intros [? _]; done].
    + rewrite IH. split; [by intros ?; split | by intros [_ ?]].
Qed.

Lemma get_Some_elem k v m : JsMap.get k m = Some v → (k, v) ∈ m.
Proof.
  induction m as [|[k' v'] m IH]; simpl; [done|].
  destruct (decide (k' = k)) as [->|Hne].
  - intros [= ->]. left.
  - intros H. right. by apply IH.
Qed.

Lemma elem_get k v m : NoDup (JsMap.keys m) → (k, v) ∈ m → JsMap.get k m = Some v.
Proof.
  unfold JsMap.keys. induction m as [|[k' v'] m IH]; simpl.
  - intros _ H. by apply elem_of_nil in H.
  - rewrite NoDup_cons. intros [Hk' Hnd] [[= -> ->]|Hin]%elem_of_cons.
    + by rewrite decide_True.
    + rewrite decide_False; [by apply IH|].
      intros ->. apply Hk'. apply list_elem_of_fmap. by exists (k, v).
Qed.

Lemma set_absent k v m : k ∉ JsMap.keys m → JsMap.set k v m = m ++ [(k, v)].
Proof.
  unfold JsMap.keys. induction m as [|[k' v'] m IH]; simpl; [done|].
  rewrite not_elem_of_cons. intros [Hne Hnin].
  case_decide; [by subst|]. by rewrite IH.
Qed.

Lemma length_set_present k v m :
  is_Some (JsMap.get k m) → length (JsMap.set k v m) = length m.
Proof.
  induction m as [|[k' v'] m IH]; simpl.
  - by intros [? ?].
  - destruct (decide (k' = k)); simpl; [done|]. intros H. by rewrite IH.
Qed.

Lemma elem_of_set k v k' v' m :
  (k', v') ∈ JsMap.set k v m → (k', v') = (k, v) ∨ (k', v') ∈ m.
Proof.
  induction m as [|[k0 v0] m IH]; simpl.
  - intros ->%list_elem_of_singleton. by left.
  - destruct (decide (k0 = k)) as [->|Hne].
    + intros [->|Hin]%elem_of_cons; [by left | right; by right].
    + intros [->|Hin]%elem_of_cons; [right; left|].
      destruct (IH Hin) as [?|?]; [by left | right; by right].
Qed.

Lemma keys_set k v m :
  JsMap.keys (JsMap.set k v m)
  = if decide (k ∈ JsMap.keys m) then JsMap.keys m else JsMap.keys m ++ [k].
Proof.
  unfold JsMap.keys. induction m as [|[k' v'] m IH].
  - rewrite decide_False; [done | apply not_elem_of_nil].
  - cbn [JsMap.set]. rewrite fmap_cons. cbn [fst].
    destruct (decide (k' = k)) as [->|Hne].
    + rewrite decide_True; [done | left].
    + rewrite fmap_cons, IH. cbn [fst].
      destruct (decide (k ∈ m.*1)) as [Hin|Hnin].
      * rewrite decide_True; [done | by right].
      * rewrite decide_False; [done|].
        intros [?|?]%elem_of_cons; [by subst | done].
Qed.

Lemma NoDup_keys_set k v m :
  NoDup (JsMap.keys m) → NoDup (JsMap.keys (JsMap.set k v m)).
Proof.
  intros Hnd. rewrite keys_set. case_decide; [done|].
  apply NoDup_app. split_and!; [done | | apply NoDup_singleton].
  intros x Hx ->%list_elem_of_singleton. done.
Qed.

Lemma elem_of_delete k k' v' m :
  (k', v') ∈ JsMap.delete k m → (k', v') ∈ m ∧ k' ≠ k.
Proof.
  induction m as [|[k0 v0] m IH]; simpl.
  - intros H. by apply elem_of_nil in H.
  - destruct (decide (k0 = k)) as [->|Hne].
    + intros Hin. destruct (IH Hin). split; [by right | done].
    + intros [[= -> ->]|Hin]%elem_of_cons; [split; [left | done]|].
      destruct (IH Hin). split; [by right | done].
Qed.

Lemma get_delete_eq k m : JsMap.get k (JsMap.delete k m) = None.
Proof.
  induction m as [|[k' v'] m IH]; simpl; [done|].
  destruct (decide (k' = k)) as [->|Hne]; simpl; [done|].
  by rewrite decide_False.
Qed.

Lemma get_delete_ne k k' m :
  k ≠ k' → JsMap.get k' (JsMap.delete k m) = JsMap.get k' m.
Proof.
  intros Hne. induction m as [|[k0 v0] m IH]; simpl; [done|].
  destruct (decide (k0 = k)) as [->|Hk0]; simpl.
  - by rewrite decide_False.
  - by rewrite IH.
Qed.

Lemma keys_delete_sublist k m :
  JsMap.keys (JsMap.delete k m) `sublist_of` JsMap.keys m.
Proof.
  unfold JsMap.keys. induction m as [|[k' v'] m IH]; simpl; [done|].
  destruct (decide (k' = k)); simpl.
  - by apply sublist_cons.
  - by apply sublist_skip.
Qed.

Lemma NoDup_keys_delete k m :
  NoDup (JsMap.keys m) → NoDup (JsMap.keys (JsMap.delete k m)).
Proof. intros Hnd. eapply sublist_NoDup; [done | apply keys_delete_sublist]. Qed.

Lemma has_get k m : JsMap.has k m = bool_decide (is_Some (JsMap.get k m)).
Proof.
  unfold JsMap.has. destruct (JsMap.get k m).
  - by rewrite bool_decide_true.
  - rewrite bool_decide_false; [done | by intros [? ?]].
Qed.
End JsMap_facts.

(** [new Map(entries)] *)
Section of_entries_facts.
Context {A V : Type} (key : A → string) (val : A → V).
Implicit Types (acc : JsMap.t V) (xs : list A).

Let step := fun (m : JsMap.t V) (x : A) => JsMap.set (key x) (val x) m.

Lemma NoDup_keys_foldl_set acc xs :
  NoDup (JsMap.keys acc) → NoDup (JsMap.keys (foldl step acc xs)).
Proof.
  revert acc. induction xs as [|x xs IH]; intros acc Hnd; simpl; [done|].
  apply IH. by apply NoDup_keys_set.
Qed.

Lemma get_foldl_set k acc xs :
  JsMap.get k (foldl step acc xs)
  = match last (filter (fun x => key x = k) xs) with
    | Some x => Some (val x)
    | None => JsMap.get k acc
    end.
Proof.
  revert acc. induction xs as [|x xs IH]; intros acc; [done|].
  cbn [foldl]. rewrite IH, filter_cons.
  destruct (decide (key x = k)) as [<-|Hne].
  - rewrite last_cons. destruct (last (filter _ xs)); [done|].
    unfold step. apply get_set_eq.
  - destruct (last (filter _ xs)); [done|].
    unfold step. by apply get_set_ne.
Qed.

Lemma elem_of_foldl_set k v acc xs :
  (k, v) ∈ foldl step acc xs →
  (k, v) ∈ acc ∨ ∃ x, x ∈ xs ∧ key x = k ∧ val x = v.
Proof.
  revert acc. induction xs as [|x xs IH]; intros acc; simpl; [by left|].
  intros [Hin|(y & ? & ? & ?)]%IH.
  - apply elem_of_set in Hin as [[= -> ->]|?]; [|by left].
    right. exists x. split; [left | done].
  - right. exists y. split; [by right | done].
Qed.

Lemma foldl_set_fresh acc xs :
  NoDup (JsMap.keys acc ++ (key <$> xs)) →
  foldl step acc xs = acc ++ ((fun x => (key x, val x)) <$> xs).
Proof.
  revert acc. induction xs as [|x xs IH]; intros acc Hnd; simpl.
  - by rewrite app_nil_r.
  - rewrite fmap_cons in Hnd. unfold step at 2.
    rewrite set_absent.
    + rewrite IH; [by rewrite <-app_assoc|].
      unfold JsMap.keys. rewrite fmap_app, <-app_assoc. done.
    + apply NoDup_app in Hnd as (_ & Hdisj & _).
      intros Hin. apply (Hdisj _ Hin). left.
Qed.
End of_entries_facts.

Lemma of_entries_foldl {A V} (key : A → string) (val : A → V) (xs : list A) :
  JsMap.of_entries ((fun x => (key x, val x)) <$> xs)
  = foldl (fun m x => JsMap.set (key x) (val x) m) [] xs.
Proof. unfold JsMap.of_entries. by rewrite foldl_fmap. Qed.

Lemma of_entries_NoDup {V} (es : list (string * V)) :
  NoDup (JsMap.keys (JsMap.of_entries es)).
Proof. apply (NoDup_keys_foldl_set fst snd). apply NoDup_nil_2. Qed.

Lemma of_entries_fresh {V} (es : list (string * V)) :
  NoDup es.*1 → JsMap.of_entries es = es.
Proof.
  intros Hnd. unfold JsMap.of_entries.
  rewrite (foldl_set_fresh fst snd); [|done].
  simpl. rewrite <-(list_fmap_id es) at 2.
  apply list_fmap_ext. by intros _ [? ?] _.
Qed.

Lemma set_fmap {V W} (f : V → W) k v (m : JsMap.t V) :
  JsMap.set k (f v) (prod_map (fun k : string => k) f <$> m)
  = prod_map (fun k : string => k) f <$> JsMap.set k v m.
Proof.
  induction m as [|[k' v'] m IH]; [done|].
  rewrite fmap_cons. cbn [JsMap.set prod_map fst snd].
  destruct (decide (k' = k)); [done|]. by rewrite IH, fmap_cons.
Qed.

Lemma get_fmap {V W} (f : V → W) k (m : JsMap.t V) :
  JsMap.get k (prod_map (fun k : string => k) f <$> m) = f <$> JsMap.get k m.
Proof.
  induction m as [|[k' v'] m IH]; [done|].
  rewrite fmap_cons. cbn [JsMap.get prod_map fst snd].
  destruct (decide (k' = k)); [done|]. by rewrite IH.
Qed.

Lemma keys_fmap {V W} (f : V → W) (m : JsMap.t V) :
  JsMap.keys (prod_map (fun k : string => k) f <$> m) = JsMap.keys m.
Proof.
  unfold JsMap.keys. rewrite <-list_fmap_compose.
  apply list_fmap_ext. by intros _ [? ?] _.
Qed.

Lemma of_entries_fmap {V W} (f : V → W) (es : list (string * V)) :
  JsMap.of_entries (prod_map (fun k : string => k) f <$> es)
  = prod_map (fun k : string => k) f <$> JsMap.of_entries es.
Proof.
  unfold JsMap.of_entries. rewrite foldl_fmap.
  change [] with (prod_map (fun k : string => k) f <$> ([] : JsMap.t V)) at 1.
  generalize ([] : JsMap.t V).
  induction es as [|[k v] es IH]; intros acc; [done|].
  cbn [foldl prod_map fst snd]. rewrite set_fmap. apply IH.
Qed.

(** ** The persisted document *)

Lemma Frequency_roundtrip f : Frequency_of_string (Frequency_to_string f) = Some f.
Proof. by destruct f. Qed.

Lemma strings_of_JStr cs : strings_of (JStr <$> cs) = Some cs.
Proof.
  induction cs as [|c cs IH]; [done|].
  rewrite fmap_cons. cbn [strings_of as_string mbind option_bind]. by rewrite IH.
Qed.

Lemma Habit_roundtrip (h : HabitData) : Habit_of_json (Habit_to_json h) = Some h.
Proof.
  destruct h as [i n [d|] f cs t]; cbn -[fmap];
    by rewrite Frequency_roundtrip, strings_of_JStr.
Qed.

Lemma habits_of_to_json hs : habits_of (Habit_to_json <$> hs) = Some hs.
Proof.
  induction hs as [|h hs IH]; [done|].
  rewrite fmap_cons. cbn [habits_of]. by rewrite Habit_roundtrip, IH.
Qed.

Lemma no_null_to_json hs : existsb is_null (Habit_to_json <$> hs) = false.
Proof. induction hs as [|h hs IH]; [done|]. by rewrite fmap_cons. Qed.

(** ** The heap of arrays *)

Lemma with_arrays_id w : with_arrays (arrays w) w = w.
Proof. by destruct w. Qed.

Lemma fresh_array_None w : arrays w !! fresh (dom (arrays w)) = None.
Proof. apply not_elem_of_dom, is_fresh. Qed.

Lemma deref_weaken w w' r xs :
  arrays w ⊆ arrays w' → arrays w !! r = Some xs → deref w' r = xs.
Proof.
  intros Hsub Hr. unfold deref. by rewrite (lookup_weaken _ _ _ _ Hr Hsub).
Qed.

(** The entries that [load] builds: one new array for each record, holding
    the record's completions; nothing else in the world changes. *)
Lemma entries_of_spec hs st w :
  ∃ es w',
    entries_of hs st w = (Ok es, st, w')
    ∧ w' = with_arrays (arrays w') w
    ∧ arrays w ⊆ arrays w'
    ∧ view w' es = (fun h => (id h, h)) <$> hs.
Proof.
  revert w. induction hs as [|h hs IH]; intros w.
  - exists [], w. split_and!; [done | by rewrite with_arrays_id | done | done].
  - cbn [entries_of]. unfold bind at 1, new_array at 1.
    set (r := fresh (dom (arrays w))).
    set (w1 := with_arrays (<[r:=completions h]> (arrays w)) w).
    destruct (IH w1) as (es & w' & Hrun & Hw' & Hsub & Hview).
    unfold bind. rewrite Hrun. unfold ret.
    eexists _, w'. split_and!; [done | | |].
    + rewrite Hw' at 1. done.
    + etrans; [|exact Hsub]. apply insert_subseteq, fresh_array_None.
    + unfold view in *. rewrite !fmap_cons, Hview. f_equal.
      unfold prod_map, snapshot; cbn.
      rewrite (deref_weaken w1 w' r (completions h) Hsub).
      * by destruct h.
      * apply lookup_insert_eq.
Qed.

(** ** [save] *)

Lemma writable_fault p w w' : fault w' = fault w → writable p w → writable p w'.
Proof. unfold writable. by intros ->. Qed.

Lemma string_length_app s1 s2 :
  String.length (s1 +:+ s2) = String.length s1 + String.length s2.
Proof.
  induction s1 as [|a s1 IH]; [done|].
  change (String a s1 +:+ s2) with (String a (s1 +:+ s2)).
  cbn [String.length]. by rewrite IH.
Qed.

Lemma append_tmp_ne p : p +:+ ".tmp" ≠ p.
Proof.
  intros Heq. apply (f_equal String.length) in Heq.
  rewrite string_length_app in Heq. cbn [String.length] in Heq. lia.
Qed.

Lemma save_ok st w :
  writable (filePath st) w → save st w = (Ok tt, st, saved st w).
Proof.
  intros (Hmk & Hwr & Hrn).
  run_save.
  rewrite Hmk. cbn. rewrite Hwr. cbn. rewrite Hrn, lookup_insert_eq.
  unfold saved, document. by rewrite delete_insert_eq.
Qed.

(** Whether it goes through or not, [save] leaves the store and the arrays
    as they are. *)
Lemma save_store st w : store_after (save st w) = st.
Proof.
  unfold store_after. run_save.
  destruct (fault w (MkdirDirname _)); cbn; [done|].
  destruct (fault w (Write _)); cbn; [done|].
  destruct (fault w (Rename _ _)); cbn; [done|].
  by rewrite lookup_insert_eq.
Qed.

Lemma save_arrays st w : arrays (world_after (save st w)) = arrays w.
Proof.
  unfold world_after. run_save.
  destruct (fault w (MkdirDirname _)); cbn; [done|].
  destruct (fault w (Write _)); cbn; [done|].
  destruct (fault w (Rename _ _)); cbn; [done|].
  by rewrite lookup_insert_eq.
Qed.

Lemma saved_persisted st w : persisted st (saved st w).
Proof. unfold persisted, saved. cbn. apply lookup_insert_eq. Qed.

Lemma saved_no_tmp st w : files (saved st w) !! (filePath st +:+ ".tmp") = None.
Proof.
  unfold saved. cbn. rewrite lookup_insert_ne.
  - apply lookup_delete_eq.
  - intros Heq. by apply (append_tmp_ne (filePath st)).
Qed.

(** ** [load] *)

Lemma load_missing st w :
  fault w (Read (filePath st)) = None →
  files w !! filePath st = None →
  load st w = (Ok tt, mkStore [] (filePath st), w).
Proof.
  intros Hf Hnone. run_load.
  by rewrite Hf, Hnone.
Qed.

Lemma load_read_failure st w code :
  fault w (Read (filePath st)) = Some code →
  code ≠ "ENOENT" →
  load st w = (Throw (ErrnoException code), st, w).
Proof.
  intros Hf Hne. run_load.
  rewrite Hf. cbn. rewrite decide_False; [done|]. by intros [= ->].
Qed.

Lemma load_invalid_json st w raw :
  fault w (Read (filePath st)) = None →
  files w !! filePath st = Some (Unparsable raw) →
  load st w = (Throw (corrupt_invalid_json (filePath st)), st, w).
Proof.
  intros Hf Hraw. run_load.
  by rewrite Hf, Hraw.
Qed.

Lemma load_not_array st w data hf :
  fault w (Read (filePath st)) = None →
  files w !! filePath st = Some (Parsable data) →
  get_habits data = Ok hf →
  (∀ items, hf ≠ Some (JArr items)) →
  load st w = (Throw (corrupt_not_array (filePath st)), st, w).
Proof.
  intros Hf Hdoc Hget Hno. run_load.
  rewrite Hf, Hdoc. cbn. unfold lift. rewrite Hget.
  destruct hf as [[| | | |items|]|]; try done. by destruct (Hno items).
Qed.

Lemma load_null st w :
  fault w (Read (filePath st)) = None →
  files w !! filePath st = Some (Parsable JNull) →
  load st w
  = (Throw (TypeError "Cannot read properties of null (reading 'habits')"),
     st, w).
Proof.
  intros Hf Hdoc. run_load.
  by rewrite Hf, Hdoc.
Qed.

(** Loading a document that holds the records [hs]. *)
Lemma load_document hs st w :
  fault w (Read (filePath st)) = None →
  files w !! filePath st = Some (JSON_stringify (HabitsData_to_json hs)) →
  ∃ es w',
    load st w = (Ok tt, mkStore (JsMap.of_entries es) (filePath st), w')
    ∧ w' = with_arrays (arrays w') w
    ∧ arrays w ⊆ arrays w'
    ∧ view w' es = (fun h => (id h, h)) <$> hs.
Proof.
  intros Hf Hdoc.
  destruct (entries_of_spec hs st w) as (es & w' & Hrun & Hw' & Hsub & Hview).
  exists es, w'. split; [|done].
  run_load.
  rewrite Hf, Hdoc. cbn. unfold habits_entries.
  rewrite no_null_to_json, habits_of_to_json, Hrun. done.
Qed.

Lemma corrupt_invalid_json_names p :
  ∃ m, corrupt_invalid_json p = Error m ∧ names_path m p.
Proof.
  eexists. split; [done|]. by exists "Corrupt data file at ", ": invalid JSON".
Qed.

Lemma corrupt_not_array_names p :
  ∃ m, corrupt_not_array p = Error m ∧ names_path m p.
Proof.
  eexists. split; [done|]. by eexists "Corrupt data file at ", _.
Qed.

(** ** The mapping stays consistent *)

Lemma view_get w k m : JsMap.get k (view w m) = snapshot w <$> JsMap.get k m.
Proof. apply get_fmap. Qed.

Lemma view_keys w m : JsMap.keys (view w m) = JsMap.keys m.
Proof. apply keys_fmap. Qed.

Lemma keyed_elem m : keyed m ↔ ∀ k h, (k, h) ∈ m → id h = k.
Proof.
  unfold keyed. rewrite Forall_forall. split.
  - intros H k h Hin. apply (H (k, h) Hin).
  - intros H [k h] Hin. by apply H.
Qed.

Lemma dup_free_elem st w :
  dup_free st w ↔ ∀ k h, (k, h) ∈ habits st → NoDup (deref w (completions h)).
Proof.
  unfold dup_free. rewrite Forall_forall. split.
  - intros H k h Hin. apply (H (k, h) Hin).
  - intros H [k h] Hin. by apply (H k).
Qed.

Lemma consistent_nil : consistent [].
Proof. split; [apply NoDup_nil_2 | apply Forall_nil_2]. Qed.

Lemma consistent_set k (h : Habit) m :
  id h = k → consistent m → consistent (JsMap.set k h m).
Proof.
  intros Hid [Hnd Hkeyed]. split; [by apply NoDup_keys_set|].
  rewrite keyed_elem in *.
  intros k' h' [[= -> ->]|Hin]%elem_of_set; [done | by apply Hkeyed].
Qed.

Lemma consistent_delete k m : consistent m → consistent (JsMap.delete k m).
Proof.
  intros [Hnd Hkeyed]. split; [by apply NoDup_keys_delete|].
  rewrite keyed_elem in *.
  intros k' h' [Hin _]%elem_of_delete. by apply Hkeyed.
Qed.

Lemma view_entries_keyed w (es : list (string * Habit)) (hs : list HabitData) :
  view w es = (fun h => (id h, h)) <$> hs → ∀ k h, (k, h) ∈ es → id h = k.
Proof.
  intros Hview k h Hin.
  assert ((k, snapshot w h) ∈ view w es) as Hv.
  { unfold view. apply list_elem_of_fmap. by exists (k, h). }
  rewrite Hview in Hv. apply list_elem_of_fmap in Hv as (d & [= -> Hd] & _).
  by rewrite <-Hd.
Qed.

Lemma entries_of_keyed hs st w es w' :
  entries_of hs st w = (Ok es, st, w') → ∀ k h, (k, h) ∈ es → id h = k.
Proof.
  destruct (entries_of_spec hs st w) as (es0 & w0 & Hrun & _ & _ & Hview).
  rewrite Hrun. intros [= <- <-]. by apply (view_entries_keyed w0 es0 hs).
Qed.

Lemma consistent_of_entries (es : list (string * Habit)) :
  (∀ k h, (k, h) ∈ es → id h = k) → consistent (JsMap.of_entries es).
Proof.
  intros Hkeyed. split; [apply of_entries_NoDup|].
  rewrite keyed_elem.
  intros k h [Hin|(e & He & <- & <-)]%(elem_of_foldl_set fst snd).
  - by apply elem_of_nil in Hin.
  - apply Hkeyed. by destruct e.
Qed.

(** ** What each method does to the store *)

(** A method that ends on [save] and returns [a]: the store is the one
    [save] was called on, whether or not the write goes through. *)
Lemma save_then {A} (a : A) st w :
  (save ;; ret a) st w
  = (match outcome (save st w) with
     | Ok _ => Ok a
     | Throw e => Throw e
     | Untyped => Untyped
     end, st, world_after (save st w)).
Proof.
  pose proof (save_store st w) as Hst.
  unfold bind, ret, outcome, world_after, store_after in *.
  destruct (save st w) as [[[[]|e|] st'] w']; cbn in *; by subst.
Qed.

Lemma save_then_ok {A} (a : A) st w :
  writable (filePath st) w → (save ;; ret a) st w = (Ok a, st, saved st w).
Proof. intros Hw. rewrite save_then, (save_ok st w Hw). done. Qed.

Lemma save_only st w :
  save st w = (outcome (save st w), st, world_after (save st w)).
Proof.
  pose proof (save_store st w) as Hst.
  unfold outcome, world_after, store_after in *.
  destruct (save st w) as [[r st'] w']; cbn in *; by subst.
Qed.

Lemma store_after_discard {A} (c : M A) st w :
  store_after ((c ;; ret tt) st w) = store_after (c st w).
Proof.
  unfold bind, ret, store_after. by destruct (c st w) as [[[a|e|] st'] w'].
Qed.

Lemma world_after_discard {A} (c : M A) st w :
  world_after ((c ;; ret tt) st w) = world_after (c st w).
Proof.
  unfold bind, ret, world_after. by destruct (c st w) as [[[a|e|] st'] w'].
Qed.

(** The record that [addHabit] builds and the world in which it is saved:
    one random draw is used when no id was given, one new empty array is
    made when no completions were given. *)
Lemma addHabit_unfold attrs st w :
  ∃ h w1,
    addHabit attrs st w
    = (save ;; ret h) (mkStore (JsMap.set (id h) h (habits st)) (filePath st)) w1
    ∧ id h = default (uuid_of_bits (entropy w (draws w))) (attrs_id attrs)
    ∧ name h = attrs_name attrs
    ∧ description h = attrs_description attrs
    ∧ frequency h = attrs_frequency attrs
    ∧ createdAt h = default (now w) (attrs_createdAt attrs)
    ∧ match attrs_completions attrs with
      | Some c => completions h = c ∧ arrays w1 = arrays w
      | None => arrays w !! completions h = None
                ∧ arrays w1 = <[completions h := []]> (arrays w)
      end
    ∧ files w1 = files w ∧ fault w1 = fault w
    ∧ draws w1 = match attrs_id attrs with
                 | Some _ => draws w
                 | None => S (draws w)
                 end.
Proof.
  exists
    (mkHabit (default (uuid_of_bits (entropy w (draws w))) (attrs_id attrs))
       (attrs_name attrs) (attrs_description attrs) (attrs_frequency attrs)
       (default (fresh (dom (arrays w))) (attrs_completions attrs))
       (default (now w) (attrs_createdAt attrs))),
    (mkWorld
       (match attrs_completions attrs with
        | Some _ => arrays w
        | None => <[fresh (dom (arrays w)) := []]> (arrays w)
        end)
       (files w) (fault w) (entropy w)
       (match attrs_id attrs with Some _ => draws w | None => S (draws w) end)
       (now w)).
  destruct w, attrs as [[i|] n d f [c|] [t|]];
    (split; [reflexivity|]); cbn; split_and!; try done;
    apply not_elem_of_dom, is_fresh.
Qed.

Lemma addHabit_store attrs st w :
  ∃ h, store_after (addHabit attrs st w)
       = mkStore (JsMap.set (id h) h (habits st)) (filePath st).
Proof.
  destruct (addHabit_unfold attrs st w) as (h & w1 & -> & _).
  exists h. by rewrite save_then.
Qed.

Lemma updateHabit_absent i patch st w :
  JsMap.get i (habits st) = None →
  updateHabit i patch st w = (Throw (Error ("Habit not found: " +:+ i)), st, w).
Proof. intros Hget. unfold updateHabit, bind, this_habits. cbn. by rewrite Hget. Qed.

Lemma updateHabit_present i patch st w existing :
  JsMap.get i (habits st) = Some existing →
  updateHabit i patch st w
  = (save ;; ret (merge existing patch i))
      (mkStore (JsMap.set i (merge existing patch i) (habits st)) (filePath st)) w.
Proof. intros Hget. unfold updateHabit at 1, bind at 1, this_habits. cbn. by rewrite Hget. Qed.

Lemma deleteHabit_absent i st w :
  JsMap.get i (habits st) = None → deleteHabit i st w = (Ok false, st, w).
Proof.
  intros Hget. unfold deleteHabit, bind, this_habits, JsMap.has. cbn.
  by rewrite Hget.
Qed.

Lemma deleteHabit_present i st w :
  is_Some (JsMap.get i (habits st)) →
  deleteHabit i st w
  = (save ;; ret true) (mkStore (JsMap.delete i (habits st)) (filePath st)) w.
Proof.
  intros [h Hget]. unfold deleteHabit at 1, bind at 1, this_habits, JsMap.has.
  cbn. by rewrite Hget.
Qed.

Lemma logCompletion_absent i date st w :
  JsMap.get i (habits st) = None →
  logCompletion i date st w = (Throw (Error ("Habit not found: " +:+ i)), st, w).
Proof. intros Hget. unfold logCompletion, bind, this_habits. cbn. by rewrite Hget. Qed.

Lemma logCompletion_logged i date st w habit :
  JsMap.get i (habits st) = Some habit →
  date ∈ deref w (completions habit) →
  logCompletion i date st w = (Ok tt, st, w).
Proof.
  intros Hget Hin. unfold logCompletion, bind, this_habits, read_array, includes.
  cbn. rewrite Hget. cbn. by rewrite bool_decide_true.
Qed.

Lemma logCompletion_new i date st w habit :
  JsMap.get i (habits st) = Some habit →
  date ∉ deref w (completions habit) →
  logCompletion i date st w
  = save st (with_arrays (<[completions habit :=
                              deref w (completions habit) ++ [date]]> (arrays w)) w).
Proof.
  intros Hget Hin. unfold logCompletion, bind at 1, this_habits, read_array, includes.
  cbn. rewrite Hget. cbn. rewrite bool_decide_false; [|done]. cbn.
  unfold bind, push. by destruct st.
Qed.

Lemma logCompletion_store i date st w : store_after (logCompletion i date st w) = st.
Proof.
  destruct (JsMap.get i (habits st)) as [habit|] eqn:Hget.
  - destruct (decide (date ∈ deref w (completions habit))).
    + by erewrite logCompletion_logged.
    + erewrite logCompletion_new; [|done..]. apply save_store.
  - by rewrite logCompletion_absent.
Qed.

Lemma load_consistent st w :
  consistent (habits st) → consistent (habits (store_after (load st w))).
Proof.
  intros Hc. unfold store_after. run_load.
  destruct (fault w (Read (filePath st))) as [code|]; cbn.
  { case_decide; cbn; [apply consistent_nil | done]. }
  destruct (files w !! filePath st) as [[raw|data]|]; cbn;
    [done | | apply consistent_nil].
  unfold lift. destruct (get_habits data) as [[[| | | |items|]|]|e|]; cbn; try done.
  unfold habits_entries. destruct (existsb is_null items); [done|].
  destruct (habits_of items) as [hs|]; [|done].
  destruct (entries_of_spec hs st w) as (es & w' & Hrun & _).
  rewrite Hrun. cbn. apply consistent_of_entries.
  by apply (entries_of_keyed hs st w es w').
Qed.

(** Every store that calls can lead to holds each key once, and every
    record under its own id. *)
Lemma reachable_consistent st : reachable st → consistent (habits st).
Proof.
  induction 1 as [path|st c w Hreach IH]; [apply consistent_nil|].
  destruct c as [| |attrs|i patch|i|i date]; cbn [exec];
    rewrite ?store_after_discard.
  - by apply load_consistent.
  - by rewrite save_store.
  - destruct (addHabit_store attrs st w) as [h ->]. by apply consistent_set.
  - destruct (JsMap.get i (habits st)) as [existing|] eqn:Hget.
    + rewrite (updateHabit_present _ _ _ _ _ Hget), save_then.
      by apply consistent_set.
    + by rewrite updateHabit_absent.
  - destruct (JsMap.get i (habits st)) as [h|] eqn:Hget.
    + rewrite deleteHabit_present, save_then by (by rewrite Hget).
      by apply consistent_delete.
    + by rewrite deleteHabit_absent.
  - by rewrite logCompletion_store.
Qed.

(** * The claims of the specification *)

Lemma entries_of_view_values w (m : JsMap.t Habit) :
  keyed m →
  (fun h : HabitData => (id h, h)) <$> (snapshot w <$> JsMap.values m) = view w m.
Proof.
  intros Hkeyed. unfold view, JsMap.values.
  rewrite <-!list_fmap_compose. apply list_fmap_ext.
  intros n [k h] Hn. cbn. f_equal.
  apply keyed_elem with (k := k) (h := h) in Hkeyed; [done|].
  by apply list_elem_of_lookup_2 in Hn.
Qed.

(** C1.  Saving a mapping and loading the document that [save] wrote
    rebuilds an equivalent mapping: the same ids (in the same order), and
    under each id a record with the same field values, the completions
    included.  The mapping is any mapping a store can hold ([consistent],
    see [reachable_consistent]); the load may be that of the same store or
    of a new store on the same path. *)
Theorem save_load_roundtrip st st0 w :
  consistent (habits st) →
  writable (filePath st) w →
  fault w (Read (filePath st)) = None →
  filePath st0 = filePath st →
  ∃ w1 st2 w2,
    save st w = (Ok tt, st, w1)
    ∧ load st0 w1 = (Ok tt, st2, w2)
    ∧ JsMap.keys (habits st2) = JsMap.keys (habits st)
    ∧ (∀ i, snapshot w2 <$> JsMap.get i (habits st2)
            = snapshot w <$> JsMap.get i (habits st))
    ∧ view w2 (habits st2) = view w (habits st).
Proof.
  intros [Hnd Hkeyed] Hw Hread Hpath.
  destruct (load_document (snapshot w <$> JsMap.values (habits st)) st0 (saved st w))
    as (es & w2 & Hload & _ & _ & Hview).
  { by rewrite Hpath. }
  { rewrite Hpath. apply saved_persisted. }
  assert (view w2 (JsMap.of_entries es) = view w (habits st)) as Heq.
  { unfold view at 1. rewrite <-of_entries_fmap. fold (view w2 es).
    rewrite Hview, entries_of_view_values by done.
    apply of_entries_fresh. fold (JsMap.keys (view w (habits st))).
    by rewrite view_keys. }
  exists (saved st w), (mkStore (JsMap.of_entries es) (filePath st0)), w2.
  split_and!; [by apply save_ok | done | | | done]; cbn [habits].
  - by rewrite <-(view_keys w2), Heq, view_keys.
  - intros i. by rewrite <-!view_get, Heq.
Qed.

Lemma save_load_roundtrip_witness :
  consistent (habits demo_store)
  ∧ writable (filePath demo_store) demo_world
  ∧ fault demo_world (Read (filePath demo_store)) = None
  ∧ ∃ w1 st2 w2,
      save demo_store demo_world = (Ok tt, demo_store, w1)
      ∧ load demo_store w1 = (Ok tt, st2, w2)
      ∧ JsMap.keys (habits st2) = JsMap.keys (habits demo_store)
      ∧ (∀ i, snapshot w2 <$> JsMap.get i (habits st2)
              = snapshot demo_world <$> JsMap.get i (habits demo_store))
      ∧ view w2 (habits st2) = view demo_world (habits demo_store).
Proof.
  assert (consistent (habits demo_store)) as Hc by compute_done.
  assert (writable (filePath demo_store) demo_world) as Hw by (by vm_compute).
  split_and!; [done | done | reflexivity|].
  by apply (save_load_roundtrip demo_store demo_store demo_world).
Defined.

(** C7.  A successful load of a persisted sequence of records rebuilds the
    mapping keyed by each record's id: every key is held once, every record
    stands under its own id, and the record found under an id is the last
    record of the sequence with that id (none if the sequence has none). *)
Theorem load_last_write_wins hs st w :
  fault w (Read (filePath st)) = None →
  files w !! filePath st = Some (JSON_stringify (HabitsData_to_json hs)) →
  ∃ st' w',
    load st w = (Ok tt, st', w')
    ∧ consistent (habits st')
    ∧ ∀ i, snapshot w' <$> JsMap.get i (habits st') = last_with_id i hs.
Proof.
  intros Hread Hdoc.
  destruct (load_document hs st w Hread Hdoc) as (es & w' & Hload & _ & _ & Hview).
  exists (mkStore (JsMap.of_entries es) (filePath st)), w'.
  split_and!; [done | |].
  - apply consistent_of_entries. by apply (view_entries_keyed w' es hs).
  - intros i. cbn [habits]. rewrite <-view_get. unfold view.
    rewrite <-of_entries_fmap. fold (view w' es).
    rewrite Hview, of_entries_foldl, get_foldl_set. unfold last_with_id.
    by destruct (last _).
Qed.

Lemma load_last_write_wins_witness :
  fault disk_world (Read (filePath new_store)) = None
  ∧ files disk_world !! filePath new_store
    = Some (JSON_stringify (HabitsData_to_json demo_records))
  ∧ ∃ st' w',
      load new_store disk_world = (Ok tt, st', w')
      ∧ consistent (habits st')
      ∧ ∀ i, snapshot w' <$> JsMap.get i (habits st')
             = last_with_id i demo_records.
Proof.
  split_and!; [reflexivity | by vm_compute|].
  apply (load_last_write_wins demo_records new_store disk_world);
    [reflexivity | by vm_compute].
Defined.

(** C6.  A backing file whose content is the JSON text [null]: it parses,
    and what it parses to has no [habits] sequence, yet [load] does not
    fail with a corrupt data file error: reading [habits] off [null] throws
    a [TypeError], whose message does not name the file path. *)
Theorem load_null_document :
  load new_store null_world
  = (Throw (TypeError "Cannot read properties of null (reading 'habits')"),
     new_store, null_world)
  ∧ ∀ m, outcome (load new_store null_world) ≠ Throw (Error m).
Proof. split; [by vm_compute | intros m; by vm_compute]. Qed.

(** The rest of the error contract of [load] holds: see [load_missing]
    (no file: an empty mapping and an untouched world), [load_invalid_json]
    and [load_not_array] (a corrupt data file error that names the path, by
    [corrupt_invalid_json_names] and [corrupt_not_array_names]) and
    [load_read_failure] (any other read failure, as it came). *)
Lemma load_not_array_non_null st w data :
  fault w (Read (filePath st)) = None →
  files w !! filePath st = Some (Parsable data) →
  data ≠ JNull →
  (∀ ps items, data = JObj ps → assoc "habits" ps ≠ Some (JArr items)) →
  load st w = (Throw (corrupt_not_array (filePath st)), st, w).
Proof.
  intros Hf Hdoc Hnull Hno.
  destruct data as [|b|n|s|items|ps]; [done | ..].
  5: { eapply (load_not_array st w _ (assoc "habits" ps)); [done..|].
       intros items. by apply (Hno ps). }
  all: by eapply (load_not_array st w _ None).
Qed.

(** ** [addHabit] *)

Lemma uuid_of_bits_nonempty bits : uuid_of_bits bits ≠ "".
Proof. unfold uuid_of_bits, hex_byte. by lazy [String.append]. Qed.

(** C8.  [addHabit] returns the record it stores under the record's id and
    persists.  The record has the caller's name and frequency.  Its id is
    the caller's when there is one, else the UUID made of the next draw from
    the random source, never empty.  Its completions are the caller's array
    when there is one, else a new array, empty.  Its [createdAt] is the
    caller's when there is one, else the time of the clock.  Its description
    is the caller's: present exactly when the caller gave one. *)
Theorem addHabit_defaults attrs st w :
  writable (filePath st) w →
  ∃ h st' w',
    addHabit attrs st w = (Ok h, st', w')
    ∧ habits st' = JsMap.set (id h) h (habits st)
    ∧ JsMap.get (id h) (habits st') = Some h
    ∧ persisted st' w'
    ∧ name h = attrs_name attrs
    ∧ frequency h = attrs_frequency attrs
    ∧ match attrs_id attrs with
      | Some i => id h = i
      | None => id h = uuid_of_bits (entropy w (draws w)) ∧ id h ≠ ""
                ∧ draws w' = S (draws w)
      end
    ∧ match attrs_completions attrs with
      | Some c => completions h = c
      | None => arrays w !! completions h = None ∧ deref w' (completions h) = []
      end
    ∧ createdAt h = default (now w) (attrs_createdAt attrs)
    ∧ description h = attrs_description attrs
    ∧ (is_Some (description h) ↔ is_Some (attrs_description attrs)).
Proof.
  intros Hw.
  destruct (addHabit_unfold attrs st w)
    as (h & w1 & Hrun & Hid & Hname & Hdesc & Hfreq & Hat & Hcs & Hfiles & Hfault & Hdraws).
  set (st' := mkStore (JsMap.set (id h) h (habits st)) (filePath st)) in *.
  assert (writable (filePath st') w1) as Hw1 by (by apply (writable_fault _ w)).
  rewrite (save_then_ok h st' w1 Hw1) in Hrun.
  exists h, st', (saved st' w1).
  split_and!; try done.
  - apply get_set_eq.
  - apply saved_persisted.
  - destruct (attrs_id attrs) as [i|]; [done|]. cbn in Hid.
    split_and!; [done | rewrite Hid; apply uuid_of_bits_nonempty | done].
  - destruct (attrs_completions attrs) as [c|]; [by destruct Hcs|].
    destruct Hcs as [Hfresh Harr]. split; [done|].
    unfold deref, saved. cbn. by rewrite Harr, lookup_insert_eq.
  - by rewrite Hdesc.
Qed.

Lemma addHabit_defaults_witness :
  writable (filePath new_store) demo_world
  ∧ ∃ h st' w',
      addHabit demo_attrs new_store demo_world = (Ok h, st', w')
      ∧ habits st' = JsMap.set (id h) h (habits new_store)
      ∧ JsMap.get (id h) (habits st') = Some h
      ∧ persisted st' w'
      ∧ name h = "Meditate"
      ∧ frequency h = daily
      ∧ (id h = uuid_of_bits (entropy demo_world (draws demo_world))
         ∧ id h ≠ "" ∧ draws w' = S (draws demo_world))
      ∧ (arrays demo_world !! completions h = None
         ∧ deref w' (completions h) = [])
      ∧ createdAt h = now demo_world
      ∧ description h = None
      ∧ (is_Some (description h) ↔ is_Some (@None string)).
Proof.
  assert (writable (filePath new_store) demo_world) as Hw by (by vm_compute).
  split; [done|]. apply (addHabit_defaults demo_attrs new_store demo_world Hw).
Defined.

(** C10.  [addHabit] with the id of a stored habit: no error, the new
    record takes the place of the old one, the mapping holds as many habits
    as before, and [getHabit] on that id returns the new record. *)
Theorem addHabit_replaces attrs st w i old :
  attrs_id attrs = Some i →
  JsMap.get i (habits st) = Some old →
  writable (filePath st) w →
  ∃ h st' w',
    addHabit attrs st w = (Ok h, st', w')
    ∧ id h = i
    ∧ name h = attrs_name attrs
    ∧ description h = attrs_description attrs
    ∧ frequency h = attrs_frequency attrs
    ∧ createdAt h = default (now w) (attrs_createdAt attrs)
    ∧ length (habits st') = length (habits st)
    ∧ JsMap.keys (habits st') = JsMap.keys (habits st)
    ∧ getHabit i st' w' = (Ok (Some h), st', w').
Proof.
  intros Hi Hold Hw.
  destruct (addHabit_unfold attrs st w)
    as (h & w1 & Hrun & Hid & Hname & Hdesc & Hfreq & Hat & _ & _ & Hfault & _).
  rewrite Hi in Hid. cbn in Hid.
  set (st' := mkStore (JsMap.set (id h) h (habits st)) (filePath st)) in *.
  assert (writable (filePath st') w1) as Hw1 by (by apply (writable_fault _ w)).
  rewrite (save_then_ok h st' w1 Hw1) in Hrun.
  exists h, st', (saved st' w1). split_and!; try done; cbn [st' habits].
  - apply length_set_present. by rewrite Hid, Hold.
  - rewrite keys_set, decide_True; [done|].
    rewrite Hid. apply dec_stable. intros Hnin.
    apply get_None in Hnin. by rewrite Hold in Hnin.
  - unfold getHabit, bind, this_habits, ret. cbn [st' habits].
    by rewrite <-Hid, get_set_eq.
Qed.

Lemma addHabit_replaces_witness :
  attrs_id twice_attrs = Some "abc"
  ∧ JsMap.get "abc" (habits demo_store) = Some demo_habit
  ∧ writable (filePath demo_store) twice_world
  ∧ ∃ h st' w',
      addHabit twice_attrs demo_store twice_world = (Ok h, st', w')
      ∧ id h = "abc"
      ∧ name h = attrs_name twice_attrs
      ∧ description h = attrs_description twice_attrs
      ∧ frequency h = attrs_frequency twice_attrs
      ∧ createdAt h = default (now twice_world) (attrs_createdAt twice_attrs)
      ∧ length (habits st') = length (habits demo_store)
      ∧ JsMap.keys (habits st') = JsMap.keys (habits demo_store)
      ∧ getHabit "abc" st' w' = (Ok (Some h), st', w').
Proof.
  assert (writable (filePath demo_store) twice_world) as Hw by (by vm_compute).
  split_and!; [reflexivity | by vm_compute | done|].
  apply (addHabit_replaces twice_attrs demo_store twice_world "abc" demo_habit);
    [reflexivity | by vm_compute | done].
Defined.

(** ** [deleteHabit] *)

(** C9.  On an id the mapping does not hold, [deleteHabit] returns [false]
    and changes neither the store nor the world (the persisted document
    included).  On an id the mapping holds, it removes the record, persists
    and returns [true]; called again on that id, in whatever world, it
    returns [false]. *)
Theorem deleteHabit_once i st w :
  (JsMap.get i (habits st) = None → deleteHabit i st w = (Ok false, st, w))
  ∧ (is_Some (JsMap.get i (habits st)) →
     writable (filePath st) w →
     ∃ st' w',
       deleteHabit i st w = (Ok true, st', w')
       ∧ habits st' = JsMap.delete i (habits st)
       ∧ filePath st' = filePath st
       ∧ JsMap.get i (habits st') = None
       ∧ persisted st' w'
       ∧ ∀ w'', deleteHabit i st' w'' = (Ok false, st', w'')).
Proof.
  split; [apply deleteHabit_absent|].
  intros Hsome Hw.
  set (st' := mkStore (JsMap.delete i (habits st)) (filePath st)).
  exists st', (saved st' w).
  split_and!; try done.
  - rewrite (deleteHabit_present i st w Hsome). by apply save_then_ok.
  - apply get_delete_eq.
  - apply saved_persisted.
  - intros w''. apply deleteHabit_absent, get_delete_eq.
Qed.

Lemma deleteHabit_once_witness :
  (JsMap.get "ghost" (habits demo_store) = None
   ∧ deleteHabit "ghost" demo_store demo_world = (Ok false, demo_store, demo_world))
  ∧ is_Some (JsMap.get "abc" (habits demo_store))
  ∧ writable (filePath demo_store) demo_world
  ∧ ∃ st' w',
      deleteHabit "abc" demo_store demo_world = (Ok true, st', w')
      ∧ habits st' = JsMap.delete "abc" (habits demo_store)
      ∧ filePath st' = filePath demo_store
      ∧ JsMap.get "abc" (habits st') = None
      ∧ persisted st' w'
      ∧ ∀ w'', deleteHabit "abc" st' w'' = (Ok false, st', w'').
Proof.
  assert (JsMap.get "ghost" (habits demo_store) = None) as Hghost by (by vm_compute).
  assert (is_Some (JsMap.get "abc" (habits demo_store))) as Habc by (by eexists).
  assert (writable (filePath demo_store) demo_world) as Hw by (by vm_compute).
  split_and!; [done | | done | done |].
  - by apply (deleteHabit_once "ghost" demo_store demo_world).
  - by apply (deleteHabit_once "abc" demo_store demo_world).
Defined.

(** ** [updateHabit] *)

(** C3.  On an id the mapping does not hold, [updateHabit] fails with
    "Habit not found" and changes nothing.  On an id it holds, it returns
    the record whose fields are the patch's where the patch has them and
    the existing record's elsewhere, except [id], which is the id the record
    is stored under whatever the patch says (the id of the existing record,
    in a store whose records stand under their ids); that record is stored
    under the id, and the collection is persisted. *)
Theorem updateHabit_merges i patch st w :
  (JsMap.get i (habits st) = None →
   updateHabit i patch st w = (Throw (Error ("Habit not found: " +:+ i)), st, w))
  ∧ (∀ existing,
       JsMap.get i (habits st) = Some existing →
       writable (filePath st) w →
       ∃ updated st' w',
         updateHabit i patch st w = (Ok updated, st', w')
         ∧ id updated = i
         ∧ (keyed (habits st) → id updated = id existing)
         ∧ name updated = default (name existing) (patch_name patch)
         ∧ description updated
           = default (description existing) (patch_description patch)
         ∧ frequency updated = default (frequency existing) (patch_frequency patch)
         ∧ completions updated
           = default (completions existing) (patch_completions patch)
         ∧ createdAt updated = default (createdAt existing) (patch_createdAt patch)
         ∧ habits st' = JsMap.set i updated (habits st)
         ∧ filePath st' = filePath st
         ∧ JsMap.get i (habits st') = Some updated
         ∧ persisted st' w').
Proof.
  split; [apply updateHabit_absent|].
  intros existing Hget Hw.
  set (updated := merge existing patch i).
  set (st' := mkStore (JsMap.set i updated (habits st)) (filePath st)).
  exists updated, st', (saved st' w).
  split_and!; try done.
  - rewrite (updateHabit_present i patch st w existing Hget).
    by apply save_then_ok.
  - intros Hkeyed. symmetry.
    apply (proj1 (keyed_elem _) Hkeyed). by apply get_Some_elem.
  - apply get_set_eq.
  - apply saved_persisted.
Qed.

Lemma updateHabit_merges_witness :
  (JsMap.get "no-such-id" (habits demo_store) = None
   ∧ updateHabit "no-such-id" demo_patch demo_store demo_world
     = (Throw (Error "Habit not found: no-such-id"), demo_store, demo_world))
  ∧ JsMap.get "abc" (habits demo_store) = Some demo_habit
  ∧ writable (filePath demo_store) demo_world
  ∧ ∃ updated st' w',
      updateHabit "abc" demo_patch demo_store demo_world = (Ok updated, st', w')
      ∧ id updated = "abc"
      ∧ (keyed (habits demo_store) → id updated = id demo_habit)
      ∧ name updated = "Swim laps"
      ∧ description updated = None
      ∧ frequency updated = weekly
      ∧ completions updated = completions demo_habit
      ∧ createdAt updated = createdAt demo_habit
      ∧ habits st' = JsMap.set "abc" updated (habits demo_store)
      ∧ filePath st' = filePath demo_store
      ∧ JsMap.get "abc" (habits st') = Some updated
      ∧ persisted st' w'.
Proof.
  assert (JsMap.get "no-such-id" (habits demo_store) = None) as Hnone
    by (by vm_compute).
  assert (JsMap.get "abc" (habits demo_store) = Some demo_habit) as Hget
    by (by vm_compute).
  assert (writable (filePath demo_store) demo_world) as Hw by (by vm_compute).
  split_and!; [done | | done | done |].
  - by apply (updateHabit_merges "no-such-id" demo_patch demo_store demo_world).
  - by apply (updateHabit_merges "abc" demo_patch demo_store demo_world).
Defined.

(** C4, as the specification states it, fails: in a store that holds the
    record "abc" under its id and saves without failure, a patch that
    carries a [createdAt] gives the record that [createdAt]. *)
Lemma update_changes_createdAt :
  ∃ updated st' w',
    consistent (habits demo_store)
    ∧ JsMap.get "abc" (habits demo_store) = Some demo_habit
    ∧ updateHabit "abc" createdAt_patch demo_store demo_world = (Ok updated, st', w')
    ∧ JsMap.get "abc" (habits st') = Some updated
    ∧ createdAt demo_habit = "2024-01-01T00:00:00Z"
    ∧ createdAt updated = "1999-12-31T00:00:00.000Z"
    ∧ createdAt updated ≠ createdAt demo_habit.
Proof.
  eexists _, _, _.
  split_and!; [compute_done | by vm_compute | by vm_compute | by vm_compute
              | done | done | done].
Qed.

(** C4, amended.  The record that [updateHabit] returns has the id of the
    record before the update, whatever the patch says; its [createdAt] is
    that of the record before the update when the patch carries none, and
    the patch's when it carries one. *)
Theorem updateHabit_keeps_id i patch st w existing :
  consistent (habits st) →
  JsMap.get i (habits st) = Some existing →
  writable (filePath st) w →
  ∃ updated st' w',
    updateHabit i patch st w = (Ok updated, st', w')
    ∧ JsMap.get i (habits st') = Some updated
    ∧ id updated = id existing
    ∧ (patch_createdAt patch = None → createdAt updated = createdAt existing)
    ∧ (∀ t, patch_createdAt patch = Some t → createdAt updated = t).
Proof.
  intros [_ Hkeyed] Hget Hw.
  set (updated := merge existing patch i).
  set (st' := mkStore (JsMap.set i updated (habits st)) (filePath st)).
  exists updated, st', (saved st' w). split_and!.
  - rewrite (updateHabit_present i patch st w existing Hget).
    by apply save_then_ok.
  - apply get_set_eq.
  - symmetry. apply (proj1 (keyed_elem _) Hkeyed). by apply get_Some_elem.
  - intros Hnone. cbn. by rewrite Hnone.
  - intros t Hsome. cbn. by rewrite Hsome.
Qed.

Lemma updateHabit_keeps_id_witness :
  consistent (habits demo_store)
  ∧ JsMap.get "abc" (habits demo_store) = Some demo_habit
  ∧ writable (filePath demo_store) demo_world
  ∧ ∃ updated st' w',
      updateHabit "abc" createdAt_patch demo_store demo_world = (Ok updated, st', w')
      ∧ JsMap.get "abc" (habits st') = Some updated
      ∧ id updated = id demo_habit
      ∧ (patch_createdAt createdAt_patch = None →
         createdAt updated = createdAt demo_habit)
      ∧ (∀ t, patch_createdAt createdAt_patch = Some t → createdAt updated = t).
Proof.
  assert (consistent (habits demo_store)) as Hc by compute_done.
  assert (JsMap.get "abc" (habits demo_store) = Some demo_habit) as Hget
    by (by vm_compute).
  assert (writable (filePath demo_store) demo_world) as Hw by (by vm_compute).
  split_and!; [done..|].
  by apply (updateHabit_keeps_id "abc" createdAt_patch demo_store demo_world demo_habit).
Defined.

(** ** Duplicates in completions *)

Lemma dup_free_arrays st w w' :
  arrays w' = arrays w → dup_free st w → dup_free st w'.
Proof. unfold dup_free, deref. by intros ->. Qed.

Lemma deref_insert w r xs r' :
  deref (with_arrays (<[r := xs]> (arrays w)) w) r'
  = if decide (r = r') then xs else deref w r'.
Proof.
  unfold deref. cbn. destruct (decide (r = r')) as [->|Hne].
  - by rewrite lookup_insert_eq.
  - by rewrite lookup_insert_ne.
Qed.

Lemma dup_free_after_save {A} (a : A) st w :
  dup_free st w → dup_free_after ((save ;; ret a) st w).
Proof.
  intros Hdf. unfold dup_free_after. rewrite save_then.
  change (dup_free st (world_after (save st w))).
  apply (dup_free_arrays st w); [apply save_arrays | done].
Qed.

Lemma dup_free_after_save_only st w : dup_free st w → dup_free_after (save st w).
Proof.
  intros Hdf. unfold dup_free_after. rewrite save_only.
  change (dup_free st (world_after (save st w))).
  apply (dup_free_arrays st w); [apply save_arrays | done].
Qed.

Lemma dup_free_logCompletion i date st w :
  dup_free st w → dup_free_after (logCompletion i date st w).
Proof.
  intros Hdf. destruct (JsMap.get i (habits st)) as [habit|] eqn:Hget.
  - destruct (decide (date ∈ deref w (completions habit))) as [Hin|Hnin].
    + by rewrite (logCompletion_logged i date st w habit).
    + rewrite (logCompletion_new i date st w habit) by done.
      apply dup_free_after_save_only. rewrite dup_free_elem in *.
      intros k h Hkh. rewrite deref_insert. case_decide; [|by apply (Hdf k)].
      apply NoDup_app. split_and!.
      * apply (Hdf i). by apply get_Some_elem.
      * by intros x Hx ->%list_elem_of_singleton.
      * apply NoDup_singleton.
  - by rewrite logCompletion_absent.
Qed.

Lemma dup_free_deleteHabit i st w :
  dup_free st w → dup_free_after (deleteHabit i st w).
Proof.
  intros Hdf. destruct (JsMap.get i (habits st)) as [habit|] eqn:Hget.
  - rewrite deleteHabit_present by (by rewrite Hget).
    apply dup_free_after_save. rewrite dup_free_elem in *. cbn [habits].
    intros k h [Hin _]%elem_of_delete. by apply (Hdf k).
  - by rewrite deleteHabit_absent.
Qed.

Lemma dup_free_addHabit attrs st w :
  (∀ c, attrs_completions attrs = Some c → NoDup (deref w c)) →
  dup_free st w → dup_free_after (addHabit attrs st w).
Proof.
  intros Hgiven Hdf.
  destruct (addHabit_unfold attrs st w)
    as (h & w1 & -> & _ & _ & _ & _ & _ & Hcs & _).
  apply dup_free_after_save. rewrite dup_free_elem in *. cbn [habits].
  unfold deref in *.
  intros k h' [[= -> ->]|Hin]%elem_of_set.
  - destruct (attrs_completions attrs) as [c|].
    + destruct Hcs as [-> ->]. by apply Hgiven.
    + destruct Hcs as [_ ->]. rewrite lookup_insert_eq. apply NoDup_nil_2.
  - destruct (attrs_completions attrs) as [c|].
    + destruct Hcs as [_ ->]. by apply (Hdf k).
    + destruct Hcs as [_ ->].
      destruct (decide (completions h = completions h')) as [->|Hne].
      * rewrite lookup_insert_eq. apply NoDup_nil_2.
      * rewrite lookup_insert_ne by done. by apply (Hdf k).
Qed.

Lemma dup_free_updateHabit i patch st w :
  (∀ c, patch_completions patch = Some c → NoDup (deref w c)) →
  dup_free st w → dup_free_after (updateHabit i patch st w).
Proof.
  intros Hgiven Hdf. destruct (JsMap.get i (habits st)) as [existing|] eqn:Hget.
  - rewrite (updateHabit_present i patch st w existing Hget).
    apply dup_free_after_save. rewrite dup_free_elem in *. cbn [habits].
    intros k h [[= -> ->]|Hin]%elem_of_set; [|by apply (Hdf k)].
    cbn. destruct (patch_completions patch) as [c|]; cbn.
    + by apply Hgiven.
    + apply (Hdf i). by apply get_Some_elem.
  - by rewrite updateHabit_absent.
Qed.

Lemma dup_free_load hs st w :
  files w !! filePath st = Some (JSON_stringify (HabitsData_to_json hs)) →
  Forall (fun h => NoDup (completions h)) hs →
  dup_free st w → dup_free_after (load st w).
Proof.
  intros Hdoc Hhs Hdf.
  destruct (fault w (Read (filePath st))) as [code|] eqn:Hread.
  - destruct (decide (code = "ENOENT")) as [->|Hne].
    + unfold dup_free_after. run_load.
      rewrite Hread. cbn. apply Forall_nil_2.
    + by rewrite (load_read_failure st w code).
  - destruct (load_document hs st w Hread Hdoc)
      as (es & w' & -> & _ & _ & Hview).
    unfold dup_free_after. cbn. rewrite dup_free_elem. cbn [habits].
    intros k h [Hin|(e & He & <- & <-)]%(elem_of_foldl_set fst snd).
    { by apply elem_of_nil in Hin. }
    assert ((e.1, snapshot w' e.2) ∈ view w' es) as Hv.
    { unfold view. apply list_elem_of_fmap. exists e. by destruct e. }
    rewrite Hview in Hv. apply list_elem_of_fmap in Hv as (d & [= _ Hd] & Hdin).
    rewrite Forall_forall in Hhs. specialize (Hhs d Hdin). by rewrite <-Hd in Hhs.
Qed.

Lemma dup_free_load_missing st w :
  files w !! filePath st = None → dup_free st w → dup_free_after (load st w).
Proof.
  intros Hnone Hdf. unfold dup_free_after. run_load. destruct (fault w (Read (filePath st))) as [code|]; cbn.
  - case_decide; cbn; [apply Forall_nil_2 | done].
  - rewrite Hnone. cbn. apply Forall_nil_2.
Qed.

(** C5, as the specification states it, fails: [addHabit] called on an
    empty store with a completions array that holds a date twice stores
    a record whose completions hold that date twice. *)
Lemma addHabit_stores_duplicates :
  ∃ h st' w',
    dup_free new_store twice_world
    ∧ addHabit twice_attrs new_store twice_world = (Ok h, st', w')
    ∧ JsMap.get "abc" (habits st') = Some h
    ∧ deref w' (completions h) = ["2024-03-15"; "2024-03-15"]
    ∧ ¬ NoDup (deref w' (completions h))
    ∧ ¬ dup_free st' w'.
Proof.
  eexists _, _, _.
  split_and!; [compute_done | by vm_compute | by vm_compute | by vm_compute
              | compute_done | compute_done].
Qed.

(** C5, amended.  No store operation puts a duplicate date into the
    completions of a record of the mapping by itself: when no record has a
    duplicate before the call, none has one after [logCompletion],
    [deleteHabit] or [save]; none after [addHabit] or [updateHabit] unless
    the caller hands in a completions array that has one; none after [load]
    of a missing file, or of a document whose records have none. *)
Theorem no_duplicate_introduced st w :
  dup_free st w →
  (∀ i date, dup_free_after (logCompletion i date st w))
  ∧ (∀ i, dup_free_after (deleteHabit i st w))
  ∧ dup_free_after (save st w)
  ∧ (∀ attrs,
       (∀ c, attrs_completions attrs = Some c → NoDup (deref w c)) →
       dup_free_after (addHabit attrs st w))
  ∧ (∀ i patch,
       (∀ c, patch_completions patch = Some c → NoDup (deref w c)) →
       dup_free_after (updateHabit i patch st w))
  ∧ (files w !! filePath st = None → dup_free_after (load st w))
  ∧ (∀ hs,
       files w !! filePath st = Some (JSON_stringify (HabitsData_to_json hs)) →
       Forall (fun h => NoDup (completions h)) hs →
       dup_free_after (load st w)).
Proof.
  intros Hdf. split_and!.
  - intros i date. by apply dup_free_logCompletion.
  - intros i. by apply dup_free_deleteHabit.
  - by apply dup_free_after_save_only.
  - intros attrs Hgiven. by apply dup_free_addHabit.
  - intros i patch Hgiven. by apply dup_free_updateHabit.
  - intros Hnone. by apply dup_free_load_missing.
  - intros hs Hdoc Hhs. by apply (dup_free_load hs).
Qed.

Lemma no_duplicate_introduced_witness :
  dup_free demo_store demo_world
  ∧ dup_free_after (logCompletion "abc" "2024-03-15" demo_store demo_world)
  ∧ dup_free_after (deleteHabit "abc" demo_store demo_world)
  ∧ dup_free_after (save demo_store demo_world)
  ∧ dup_free_after (addHabit demo_attrs demo_store demo_world)
  ∧ dup_free_after (updateHabit "abc" demo_patch demo_store demo_world)
  ∧ dup_free_after (load demo_store demo_world).
Proof.
  assert (dup_free demo_store demo_world) as Hdf by compute_done.
  destruct (no_duplicate_introduced demo_store demo_world Hdf)
    as (Hlog & Hdel & Hsave & Hadd & Hupd & Hload & _).
  split_and!; [done | apply Hlog | apply Hdel | apply Hsave | | |].
  - apply Hadd. by intros c [=].
  - apply Hupd. by intros c [=].
  - apply Hload. by vm_compute.
Defined.

(** ** [logCompletion] *)

Lemma occurrences_snoc d xs : occurrences d (xs ++ [d]) = S (occurrences d xs).
Proof.
  unfold occurrences. rewrite filter_app, length_app, filter_cons.
  rewrite decide_True by done. cbn. lia.
Qed.

Lemma occurrences_absent d xs : d ∉ xs → occurrences d xs = 0.
Proof.
  unfold occurrences. induction xs as [|x xs IH]; [done|].
  rewrite not_elem_of_cons. intros [Hne Hnin].
  rewrite filter_cons, decide_False by done. by apply IH.
Qed.

Lemma occurrences_present d xs : d ∈ xs → (1 ≤ occurrences d xs)%nat.
Proof.
  unfold occurrences. induction xs as [|x xs IH].
  - intros Hin. by apply elem_of_nil in Hin.
  - rewrite filter_cons. intros [->|Hin]%elem_of_cons.
    + rewrite decide_True by done. cbn. lia.
    + case_decide; cbn; [lia | by apply IH].
Qed.

(** C2, as the specification states it, fails: on the record that
    [addHabit] stored with a completions array holding "2024-03-15" twice,
    two calls of [logCompletion] with that date leave the date twice in the
    completions. *)
Lemma logCompletion_keeps_duplicates :
  ∃ h st w x1 x2,
    addHabit twice_attrs new_store twice_world = (Ok h, st, w)
    ∧ JsMap.get "abc" (habits st) = Some h
    ∧ x1 = logCompletion "abc" "2024-03-15" st w
    ∧ x2 = logCompletion "abc" "2024-03-15" (store_after x1) (world_after x1)
    ∧ outcome x1 = Ok tt
    ∧ outcome x2 = Ok tt
    ∧ deref (world_after x2) (completions h) = ["2024-03-15"; "2024-03-15"]
    ∧ occurrences "2024-03-15" (deref (world_after x2) (completions h)) = 2.
Proof.
  eexists _, _, _, _, _.
  split_and!; [by vm_compute | by vm_compute | reflexivity | reflexivity
              | by vm_compute..].
Qed.

(** C2, amended.  On an id the mapping does not hold, [logCompletion] fails
    with "Habit not found" and changes nothing.  On a stored habit: if the
    date is among the completions, the call changes nothing, in memory or
    on disk; otherwise the date is appended and the collection persisted.
    Called twice with the same date, the second call changes nothing, and
    the date then occurs as often as before the first call, or once if it
    did not occur: exactly once if it occurred at most once before. *)
Theorem logCompletion_idempotent i date st w :
  (JsMap.get i (habits st) = None →
   logCompletion i date st w
   = (Throw (Error ("Habit not found: " +:+ i)), st, w))
  ∧ (∀ habit,
       JsMap.get i (habits st) = Some habit →
       (date ∈ deref w (completions habit) →
        logCompletion i date st w = (Ok tt, st, w))
       ∧ (date ∉ deref w (completions habit) →
          writable (filePath st) w →
          ∃ w',
            logCompletion i date st w = (Ok tt, st, w')
            ∧ deref w' (completions habit)
              = deref w (completions habit) ++ [date]
            ∧ persisted st w')
       ∧ (let x1 := logCompletion i date st w in
          let x2 := logCompletion i date (store_after x1) (world_after x1) in
          let before := occurrences date (deref w (completions habit)) in
          let after := occurrences date (deref (world_after x2) (completions habit)) in
          x2 = (Ok tt, store_after x1, world_after x1)
          ∧ after = Nat.max 1 before
          ∧ ((before ≤ 1)%nat → after = 1))).
Proof.
  split; [apply logCompletion_absent|].
  intros habit Hget.
  set (c := completions habit). set (xs := deref w c).
  set (w1 := with_arrays (<[c := xs ++ [date]]> (arrays w)) w).
  assert (deref w1 c = xs ++ [date]) as Hw1.
  { unfold w1. rewrite deref_insert. by rewrite decide_True. }
  split_and!.
  - by apply logCompletion_logged.
  - intros Hnin Hw. exists (saved st w1).
    rewrite (logCompletion_new i date st w habit Hget Hnin).
    split_and!; [by apply save_ok | done | apply saved_persisted].
  - cbn zeta. destruct (decide (date ∈ xs)) as [Hin|Hnin].
    + rewrite (logCompletion_logged i date st w habit Hget Hin).
      cbn [store_after world_after fst snd].
      rewrite (logCompletion_logged i date st w habit Hget Hin).
      pose proof (occurrences_present date xs Hin).
      cbn [world_after snd]. fold c xs. split_and!; [done | lia | lia].
    + rewrite (logCompletion_new i date st w habit Hget Hnin). fold c xs w1.
      rewrite save_only. cbn [store_after world_after fst snd].
      assert (deref (world_after (save st w1)) c = xs ++ [date]) as Hafter.
      { unfold deref in *. by rewrite save_arrays. }
      rewrite (logCompletion_logged i date st _ habit Hget).
      2: { fold c. rewrite Hafter. apply elem_of_app. right. left. }
      cbn [world_after snd]. rewrite Hafter, occurrences_snoc.
      rewrite (occurrences_absent date xs Hnin). split_and!; [done | lia | lia].
Qed.

Lemma logCompletion_idempotent_witness :
  (JsMap.get "unknown" (habits demo_store) = None
   ∧ logCompletion "unknown" "2024-03-15" demo_store demo_world
     = (Throw (Error "Habit not found: unknown"), demo_store, demo_world))
  ∧ JsMap.get "abc" (habits demo_store) = Some demo_habit
  ∧ ("2024-01-01" ∈ deref demo_world (completions demo_habit)
     ∧ logCompletion "abc" "2024-01-01" demo_store demo_world
       = (Ok tt, demo_store, demo_world))
  ∧ (("2024-03-15" ∉ deref demo_world (completions demo_habit))
     ∧ writable (filePath demo_store) demo_world
     ∧ ∃ w',
         logCompletion "abc" "2024-03-15" demo_store demo_world
         = (Ok tt, demo_store, w')
         ∧ deref w' (completions demo_habit)
           = deref demo_world (completions demo_habit) ++ ["2024-03-15"]
         ∧ persisted demo_store w')
  ∧ (let x1 := logCompletion "abc" "2024-03-15" demo_store demo_world in
     let x2 := logCompletion "abc" "2024-03-15" (store_after x1) (world_after x1) in
     let before :=
       occurrences "2024-03-15" (deref demo_world (completions demo_habit)) in
     let after :=
       occurrences "2024-03-15" (deref (world_after x2) (completions demo_habit)) in
     (before ≤ 1)%nat ∧ after = 1).
Proof.
  assert (JsMap.get "unknown" (habits demo_store) = None) as Hnone
    by (by vm_compute).
  assert (JsMap.get "abc" (habits demo_store) = Some demo_habit) as Hget
    by (by vm_compute).
  assert ("2024-01-01" ∈ deref demo_world (completions demo_habit)) as Hin
    by compute_done.
  assert ("2024-03-15" ∉ deref demo_world (completions demo_habit)) as Hnin
    by compute_done.
  assert (writable (filePath demo_store) demo_world) as Hw by (by vm_compute).
  assert (occurrences "2024-03-15" (deref demo_world (completions demo_habit)) ≤ 1)%nat
    as Hle by (vm_compute; lia).
  destruct (logCompletion_idempotent "unknown" "2024-03-15" demo_store demo_world)
    as [Habsent _].
  destruct (logCompletion_idempotent "abc" "2024-01-01" demo_store demo_world)
    as [_ Hold].
  destruct (Hold demo_habit Hget) as (Hlogged & _ & _).
  destruct (logCompletion_idempotent "abc" "2024-03-15" demo_store demo_world)
    as [_ Hnew].
  destruct (Hnew demo_habit Hget) as (_ & Happend & Htwice).
  cbn zeta in Htwice. destruct Htwice as (_ & _ & Honce).
  exact (conj (conj Hnone (Habsent Hnone))
           (conj Hget
              (conj (conj Hin (Hlogged Hin))
                 (conj (conj Hnin (conj Hw (Happend Hnin Hw)))
                    (conj Hle (Honce Hle)))))).
Defined.

(** * The test suite ([HabitStore.test.ts]) on the embedding *)

Example test_load_no_file :
  all_habits (create "habits.json" empty_world) = []
  ∧ files (world_after (create "habits.json" empty_world)) = ∅.
Proof. by vm_compute. Qed.

Example test_load_valid_file :
  all_habits
    (create "habits.json"
       (file_world
          (JSON_stringify
             (HabitsData_to_json
                [mkHabit "abc" "Run" None daily ["2024-01-01"]
                         "2024-01-01T00:00:00Z"]))))
  = [mkHabit "abc" "Run" None daily ["2024-01-01"] "2024-01-01T00:00:00Z"].
Proof. by vm_compute. Qed.

Example test_load_corrupt_json :
  outcome (create "habits.json" (file_world (Unparsable "not-json")))
  = Throw (Error "Corrupt data file at habits.json: invalid JSON").
Proof. by vm_compute. Qed.

Example test_load_habits_not_array :
  outcome (create "habits.json"
             (file_world (Parsable (JObj [("habits", JStr "bad")]))))
  = Throw (corrupt_not_array "habits.json").
Proof. by vm_compute. Qed.

Example test_addHabit_persists :
  let x := create "habits.json" empty_world
           >>> (fun _ => addHabit (attrs_of "Read")) in
  name <$> all_habits (create "habits.json" (world_after x)) = ["Read"].
Proof. by vm_compute. Qed.

Example test_getHabit :
  outcome (create "habits.json" empty_world
           >>> (fun _ => addHabit (attrs_of "Walk"))
           >>> (fun added => getHabit (id added)))
  = Ok (Some (mkHabit "00000000-0000-4000-8000-000000000000" "Walk" None daily
                      0 "2024-03-15T08:00:00.000Z"))
  ∧ outcome (create "habits.json" empty_world
             >>> (fun _ => getHabit "does-not-exist"))
    = Ok None.
Proof. by vm_compute. Qed.

Example test_updateHabit :
  outcome (create "habits.json" empty_world
           >>> (fun _ => addHabit (attrs_of "Swim"))
           >>> (fun habit => updateHabit (id habit) demo_patch))
  = Ok (mkHabit "00000000-0000-4000-8000-000000000000" "Swim laps" None weekly
                0 "2024-03-15T08:00:00.000Z")
  ∧ outcome (create "habits.json" empty_world
             >>> (fun _ => updateHabit "no-such-id" demo_patch))
    = Throw (Error "Habit not found: no-such-id").
Proof. by vm_compute. Qed.

Example test_deleteHabit :
  outcome (create "habits.json" empty_world
           >>> (fun _ => addHabit (attrs_of "Yoga"))
           >>> (fun habit => deleteHabit (id habit) ;; getHabit (id habit)))
  = Ok None
  ∧ outcome (create "habits.json" empty_world >>> (fun _ => deleteHabit "ghost"))
    = Ok false.
Proof. by vm_compute. Qed.

Example test_logCompletion_twice :
  let x := create "habits.json" empty_world
           >>> (fun _ => addHabit (attrs_of "Journal"))
           >>> (fun habit => logCompletion (id habit) "2024-03-15" ;;
                             logCompletion (id habit) "2024-03-15") in
  completions <$> all_habits x = [["2024-03-15"]]
  ∧ completions <$> all_habits (create "habits.json" (world_after x))
    = [["2024-03-15"]].
Proof. by vm_compute. Qed.

Example test_atomic_save :
  let x := create "habits.json" empty_world
           >>> (fun _ => addHabit (attrs_of "Stretch"))
           >>> (fun _ => addHabit (attrs_of "Code")) in
  name <$> all_habits (create "habits.json" (world_after x)) = ["Stretch"; "Code"]
  ∧ dom (files (world_after x)) = {[ "habits.json" ]}.
Proof. by vm_compute. Qed.

(** * Further properties of the store *)

(** ** [save]: what a write leaves on disk *)

Lemma writable_save_fault p w : writable p w ↔ save_fault p w = None.
Proof.
  unfold writable, save_fault. split.
  - by intros (-> & -> & ->).
  - destruct (fault w (MkdirDirname p)); [done|].
    destruct (fault w (Write (p +:+ ".tmp"))); [done|]. by intros ->.
Qed.

(** A [save] that the storage refuses: the error is the storage's, and
    only the temporary file can have been written. *)
Lemma save_fails st w code :
  save_fault (filePath st) w = Some code →
  ∃ w',
    save st w = (Throw (ErrnoException code), st, w')
    ∧ arrays w' = arrays w
    ∧ fault w' = fault w
    ∧ ∀ q, q ≠ filePath st +:+ ".tmp" → files w' !! q = files w !! q.
Proof.
  unfold save_fault. intros Hfault. run_save.
  destruct (fault w (MkdirDirname _)) as [c|]; cbn.
  { injection Hfault as ->. by eexists. }
  destruct (fault w (Write _)) as [c|]; cbn.
  { injection Hfault as ->. by eexists. }
  rewrite Hfault. eexists. split_and!; [done..|].
  intros q Hq. cbn. by rewrite lookup_insert_ne.
Qed.

(** X1.  A [save] that goes through leaves the document of the mapping
    under the target path, no temporary file beside it, and every other
    file, the store and the arrays as they were. *)
Theorem save_writes_target_only st w :
  writable (filePath st) w →
  ∃ w',
    save st w = (Ok tt, st, w')
    ∧ files w' !! filePath st = Some (document st w)
    ∧ files w' !! (filePath st +:+ ".tmp") = None
    ∧ (∀ q, q ≠ filePath st → q ≠ filePath st +:+ ".tmp" →
            files w' !! q = files w !! q)
    ∧ arrays w' = arrays w.
Proof.
  intros Hw. exists (saved st w).
  split_and!; [by apply save_ok | apply saved_persisted | apply saved_no_tmp | | done].
  intros q Hp Htmp. unfold saved. cbn.
  by rewrite lookup_insert_ne, lookup_delete_ne.
Qed.

Lemma save_writes_target_only_witness :
  writable (filePath demo_store) demo_world
  ∧ ∃ w',
      save demo_store demo_world = (Ok tt, demo_store, w')
      ∧ files w' !! filePath demo_store = Some (document demo_store demo_world)
      ∧ files w' !! (filePath demo_store +:+ ".tmp") = None
      ∧ (∀ q, q ≠ filePath demo_store → q ≠ filePath demo_store +:+ ".tmp" →
              files w' !! q = files demo_world !! q)
      ∧ arrays w' = arrays demo_world.
Proof.
  assert (writable (filePath demo_store) demo_world) as Hw by (by vm_compute).
  split; [done|]. by apply (save_writes_target_only demo_store demo_world).
Defined.

(** X2.  A [save] that fails throws the error of the storage call that
    was refused and leaves the file under the target path as it was (with
    the previous document, or absent): only the temporary file can have
    been written.  The store is unchanged. *)
Theorem failed_save_keeps_target st w e :
  outcome (save st w) = Throw e →
  ∃ code,
    e = ErrnoException code
    ∧ save_fault (filePath st) w = Some code
    ∧ store_after (save st w) = st
    ∧ files (world_after (save st w)) !! filePath st = files w !! filePath st.
Proof.
  intros Hthrow. destruct (save_fault (filePath st) w) as [code|] eqn:Hfault.
  - destruct (save_fails st w code Hfault) as (w' & Hrun & _ & _ & Hfiles).
    rewrite Hrun in *. injection Hthrow as <-. exists code.
    split_and!; [done..|]. cbn. apply Hfiles.
    intros Heq. by apply (append_tmp_ne (filePath st)).
  - apply writable_save_fault in Hfault.
    by rewrite (save_ok st w Hfault) in Hthrow.
Qed.

Lemma failed_save_keeps_target_witness :
  outcome (save demo_store full_world) = Throw (ErrnoException "ENOSPC")
  ∧ ∃ code,
      ErrnoException "ENOSPC" = ErrnoException code
      ∧ save_fault (filePath demo_store) full_world = Some code
      ∧ store_after (save demo_store full_world) = demo_store
      ∧ files (world_after (save demo_store full_world)) !! filePath demo_store
        = files full_world !! filePath demo_store.
Proof.
  assert (outcome (save demo_store full_world) = Throw (ErrnoException "ENOSPC"))
    as Hthrow by (by vm_compute).
  split; [done|].
  by apply (failed_save_keeps_target demo_store full_world).
Defined.

(** X3.  When the storage refuses the write, [addHabit], [updateHabit] and
    [deleteHabit] throw the storage's error, but the change they made to
    the mapping stays: the new record is stored, the merged record is
    stored, the deleted record is gone; the file under the target path is
    as it was. *)
Theorem failed_save_keeps_mutation st w code :
  save_fault (filePath st) w = Some code →
  (∀ attrs,
     let x := addHabit attrs st w in
     outcome x = Throw (ErrnoException code)
     ∧ (∃ h, JsMap.get (id_for attrs w) (habits (store_after x)) = Some h
             ∧ id h = id_for attrs w ∧ name h = attrs_name attrs)
     ∧ files (world_after x) !! filePath st = files w !! filePath st)
  ∧ (∀ i patch existing,
       JsMap.get i (habits st) = Some existing →
       let x := updateHabit i patch st w in
       outcome x = Throw (ErrnoException code)
       ∧ JsMap.get i (habits (store_after x)) = Some (merge existing patch i)
       ∧ files (world_after x) !! filePath st = files w !! filePath st)
  ∧ (∀ i,
       is_Some (JsMap.get i (habits st)) →
       let x := deleteHabit i st w in
       outcome x = Throw (ErrnoException code)
       ∧ JsMap.get i (habits (store_after x)) = None
       ∧ files (world_after x) !! filePath st = files w !! filePath st).
Proof.
  intros Hfault.
  assert (∀ q, q = filePath st → q ≠ filePath st +:+ ".tmp") as Hne.
  { intros q -> Heq. by apply (append_tmp_ne (filePath st)). }
  split_and!.
  - intros attrs.
    destruct (addHabit_unfold attrs st w)
      as (h & w1 & Hrun & Hid & Hname & _ & _ & _ & _ & Hfiles & Hf & _).
    set (st' := mkStore (JsMap.set (id h) h (habits st)) (filePath st)) in *.
    destruct (save_fails st' w1 code) as (w' & Hsave & _ & _ & Hkeep).
    { unfold save_fault in *. cbn. by rewrite Hf. }
    cbn zeta. rewrite Hrun, save_then, Hsave. cbn.
    split_and!; [done | | by rewrite Hkeep, Hfiles by (by apply Hne)].
    exists h. unfold id_for. rewrite <-Hid. by rewrite get_set_eq.
  - intros i patch existing Hget.
    set (st' := mkStore (JsMap.set i (merge existing patch i) (habits st)) (filePath st)).
    destruct (save_fails st' w code Hfault) as (w' & Hsave & _ & _ & Hkeep).
    cbn zeta. rewrite (updateHabit_present i patch st w existing Hget).
    fold st'. rewrite save_then, Hsave. cbn.
    split_and!; [done | apply get_set_eq | by rewrite Hkeep by (by apply Hne)].
  - intros i Hsome.
    set (st' := mkStore (JsMap.delete i (habits st)) (filePath st)).
    destruct (save_fails st' w code Hfault) as (w' & Hsave & _ & _ & Hkeep).
    cbn zeta. rewrite (deleteHabit_present i st w Hsome).
    fold st'. rewrite save_then, Hsave. cbn.
    split_and!; [done | apply get_delete_eq | by rewrite Hkeep by (by apply Hne)].
Qed.

Lemma failed_save_keeps_mutation_witness :
  save_fault (filePath demo_store) full_world = Some "ENOSPC"
  ∧ (let x := addHabit demo_attrs demo_store full_world in
     outcome x = Throw (ErrnoException "ENOSPC")
     ∧ (∃ h, JsMap.get (id_for demo_attrs full_world) (habits (store_after x))
             = Some h
             ∧ id h = id_for demo_attrs full_world ∧ name h = "Meditate")
     ∧ files (world_after x) !! filePath demo_store
       = files full_world !! filePath demo_store)
  ∧ (let x := deleteHabit "abc" demo_store full_world in
     outcome x = Throw (ErrnoException "ENOSPC")
     ∧ JsMap.get "abc" (habits (store_after x)) = None
     ∧ files (world_after x) !! filePath demo_store
       = files full_world !! filePath demo_store).
Proof.
  assert (save_fault (filePath demo_store) full_world = Some "ENOSPC") as Hfault
    by (by vm_compute).
  destruct (failed_save_keeps_mutation demo_store full_world "ENOSPC" Hfault)
    as (Hadd & _ & Hdel).
  split_and!; [done | apply Hadd | apply Hdel; by eexists].
Defined.

(** ** Memory and disk in step *)

Lemma values_view w (m : JsMap.t Habit) :
  JsMap.values (view w m) = snapshot w <$> JsMap.values m.
Proof.
  unfold JsMap.values, view. rewrite <-!list_fmap_compose.
  apply list_fmap_ext. by intros _ [? ?] _.
Qed.

Lemma document_view st st' w w' :
  view w' (habits st') = view w (habits st) → document st' w' = document st w.
Proof. intros Hview. unfold document. by rewrite <-!values_view, Hview. Qed.

(** Loading the document of a consistent mapping [m] gives a mapping that
    reads as [m] does. *)
Lemma load_document_of w0 (m : JsMap.t Habit) st w :
  consistent m →
  fault w (Read (filePath st)) = None →
  files w !! filePath st
  = Some (JSON_stringify (HabitsData_to_json (snapshot w0 <$> JsMap.values m))) →
  ∃ m' w',
    load st w = (Ok tt, mkStore m' (filePath st), w')
    ∧ w' = with_arrays (arrays w') w
    ∧ consistent m'
    ∧ view w' m' = view w0 m.
Proof.
  intros [Hnd Hkeyed] Hread Hdoc.
  destruct (load_document _ st w Hread Hdoc) as (es & w' & Hload & Hw' & _ & Hview).
  exists (JsMap.of_entries es), w'. split_and!; [done | done | |].
  - apply consistent_of_entries. by apply (view_entries_keyed w' es _ Hview).
  - unfold view at 1. rewrite <-of_entries_fmap. fold (view w' es).
    rewrite Hview, entries_of_view_values by done.
    apply of_entries_fresh. fold (JsMap.keys (view w0 m)). by rewrite view_keys.
Qed.

Lemma persisted_saved st w : persisted st (saved st w) ∧ fault (saved st w) = fault w.
Proof. split; [apply saved_persisted | done]. Qed.

(** X4.  As long as the storage accepts reads and writes, memory and disk
    stay in step: if the mapping is consistent and the backing file holds
    its document, then after any call ([load], [save], [addHabit],
    [updateHabit], [deleteHabit], [logCompletion]; failed with not-found or
    not) the mapping is consistent and the backing file holds the document
    of the mapping as it then is.  The store keeps its path. *)
Theorem calls_keep_in_step c st w :
  consistent (habits st) →
  persisted st w →
  writable (filePath st) w →
  fault w (Read (filePath st)) = None →
  let x := exec c st w in
  consistent (habits (store_after x))
  ∧ persisted (store_after x) (world_after x)
  ∧ filePath (store_after x) = filePath st
  ∧ fault (world_after x) = fault w.
Proof.
  intros Hc Hp Hw Hread. cbn zeta.
  destruct c as [| |attrs|i patch|i|i date]; cbn [exec];
    rewrite ?store_after_discard, ?world_after_discard.
  - destruct (load_document_of w (habits st) st w Hc Hread Hp)
      as (m' & w' & -> & Hw' & Hc' & Hview).
    cbn. split_and!; [done | | done | by rewrite Hw'].
    unfold persisted. cbn [filePath].
    rewrite (document_view st (mkStore m' (filePath st)) w w' Hview).
    rewrite Hw'. exact Hp.
  - rewrite (save_ok st w Hw). cbn.
    split_and!; [done | apply saved_persisted | done | done].
  - destruct (addHabit_unfold attrs st w)
      as (h & w1 & -> & _ & _ & _ & _ & _ & _ & _ & Hf & _).
    rewrite save_then_ok by (by apply (writable_fault _ w)). cbn.
    split_and!; [by apply consistent_set | apply saved_persisted | done | done].
  - destruct (JsMap.get i (habits st)) as [existing|] eqn:Hget.
    + rewrite (updateHabit_present i patch st w existing Hget).
      rewrite save_then_ok by done. cbn.
      split_and!; [by apply consistent_set | apply saved_persisted | done | done].
    + by rewrite updateHabit_absent.
  - destruct (JsMap.get i (habits st)) as [h|] eqn:Hget.
    + rewrite deleteHabit_present by (by rewrite Hget).
      rewrite save_then_ok by done. cbn.
      split_and!; [by apply consistent_delete | apply saved_persisted | done | done].
    + by rewrite deleteHabit_absent.
  - destruct (JsMap.get i (habits st)) as [habit|] eqn:Hget.
    + destruct (decide (date ∈ deref w (completions habit))) as [Hin|Hnin].
      * by rewrite (logCompletion_logged i date st w habit).
      * rewrite (logCompletion_new i date st w habit Hget Hnin).
        rewrite save_ok by done. cbn.
        split_and!; [done | apply saved_persisted | done | done].
    + by rewrite logCompletion_absent.
Qed.

Lemma calls_keep_in_step_witness :
  consistent (habits demo_store)
  ∧ persisted demo_store synced_world
  ∧ writable (filePath demo_store) synced_world
  ∧ fault synced_world (Read (filePath demo_store)) = None
  ∧ (let x := exec (CallLogCompletion "abc" "2024-03-15") demo_store synced_world in
     consistent (habits (store_after x))
     ∧ persisted (store_after x) (world_after x)
     ∧ filePath (store_after x) = filePath demo_store
     ∧ fault (world_after x) = fault synced_world).
Proof.
  assert (consistent (habits demo_store)) as Hc by compute_done.
  assert (persisted demo_store synced_world) as Hp by (by vm_compute).
  assert (writable (filePath demo_store) synced_world) as Hw by (by vm_compute).
  split_and!; [done | done | done | reflexivity|].
  by apply (calls_keep_in_step (CallLogCompletion "abc" "2024-03-15")
              demo_store synced_world).
Defined.

(** X5.  A store created on the path of a store whose mapping is
    consistent and persisted holds an equivalent mapping: the same ids in
    the same order, and under each id a record with the same field values. *)
Theorem create_sees_persisted st w :
  consistent (habits st) →
  persisted st w →
  fault w (Read (filePath st)) = None →
  ∃ st2 w2,
    create (filePath st) w = (Ok tt, st2, w2)
    ∧ filePath st2 = filePath st
    ∧ consistent (habits st2)
    ∧ view w2 (habits st2) = view w (habits st)
    ∧ files w2 = files w.
Proof.
  intros Hc Hp Hread. unfold create.
  destruct (load_document_of w (habits st) (mkStore [] (filePath st)) w Hc Hread Hp)
    as (m' & w' & Hload & Hw' & Hc' & Hview).
  exists (mkStore m' (filePath st)), w'.
  split_and!; [done | done | done | done | by rewrite Hw'].
Qed.

Lemma create_sees_persisted_witness :
  consistent (habits demo_store)
  ∧ persisted demo_store synced_world
  ∧ fault synced_world (Read (filePath demo_store)) = None
  ∧ ∃ st2 w2,
      create (filePath demo_store) synced_world = (Ok tt, st2, w2)
      ∧ filePath st2 = filePath demo_store
      ∧ consistent (habits st2)
      ∧ view w2 (habits st2) = view synced_world (habits demo_store)
      ∧ files w2 = files synced_world.
Proof.
  assert (consistent (habits demo_store)) as Hc by compute_done.
  assert (persisted demo_store synced_world) as Hp by (by vm_compute).
  split_and!; [done | done | reflexivity|].
  by apply (create_sees_persisted demo_store synced_world).
Defined.

(** ** [load]: what it reads, what it leaves alone *)

(** The runs of [load], case by case. *)
Lemma load_cases st w :
  (load st w = (Ok tt, mkStore [] (filePath st), w))
  ∨ (∃ e, load st w = (Throw e, st, w))
  ∨ (load st w = (Untyped, st, w))
  ∨ (∃ hs es w',
       load st w = (Ok tt, mkStore (JsMap.of_entries es) (filePath st), w')
       ∧ w' = with_arrays (arrays w') w
       ∧ arrays w ⊆ arrays w'
       ∧ view w' es = (fun h => (id h, h)) <$> hs).
Proof.
  run_load.
  destruct (fault w (Read (filePath st))) as [code|]; cbn.
  { case_decide; cbn; [by left | right; left; by eexists]. }
  destruct (files w !! filePath st) as [[raw|data]|]; cbn;
    [right; left; by eexists | | by left].
  unfold lift.
  destruct (get_habits data) as [[[| | | |items|]|]|e|]; cbn;
    try (right; left; by eexists); try (right; right; by left).
  unfold habits_entries. destruct (existsb is_null items).
  { right; left; by eexists. }
  destruct (habits_of items) as [hs|]; [|right; right; by left].
  destruct (entries_of_spec hs st w) as (es & w' & Hrun & Hw' & Hsub & Hview).
  rewrite Hrun. cbn. right; right; right. by exists hs, es, w'.
Qed.

(** X6.  [load] never writes: whatever the file holds and whatever the
    outcome, the files, the storage, the random source and the clock are
    as before, every array that existed holds what it held, and the store
    keeps its path. *)
Theorem load_never_writes st w :
  let x := load st w in
  files (world_after x) = files w
  ∧ fault (world_after x) = fault w
  ∧ draws (world_after x) = draws w
  ∧ now (world_after x) = now w
  ∧ arrays w ⊆ arrays (world_after x)
  ∧ filePath (store_after x) = filePath st.
Proof.
  cbn zeta.
  destruct (load_cases st w)
    as [->|[[e ->]|[->|(hs & es & w' & -> & Hw' & Hsub & _)]]]; try done.
  cbn. by rewrite Hw'.
Qed.

(** X7.  A [load] that throws changes nothing: the mapping the store held
    before is still there, and the world is as it was. *)
Theorem failed_load_changes_nothing st w e :
  outcome (load st w) = Throw e →
  store_after (load st w) = st ∧ world_after (load st w) = w.
Proof.
  destruct (load_cases st w)
    as [->|[[e' ->]|[->|(hs & es & w' & -> & _)]]]; done.
Qed.

Lemma failed_load_changes_nothing_witness :
  outcome (load demo_store (file_world (Unparsable "not-json")))
  = Throw (corrupt_invalid_json "habits.json")
  ∧ store_after (load demo_store (file_world (Unparsable "not-json"))) = demo_store
  ∧ world_after (load demo_store (file_world (Unparsable "not-json")))
    = file_world (Unparsable "not-json").
Proof.
  assert (outcome (load demo_store (file_world (Unparsable "not-json")))
          = Throw (corrupt_invalid_json "habits.json")) as Hthrow
    by (by vm_compute).
  split; [done|].
  by apply (failed_load_changes_nothing demo_store
              (file_world (Unparsable "not-json")) _ Hthrow).
Defined.

(** X8.  What [load] does with a failed read.  When the read fails with
    code ENOENT (the file is missing, or the storage says so), [load]
    succeeds and empties the mapping, whatever it held, and creates no file.
    When it fails with any other code, [load] throws that very error, and
    the mapping stays as it was. *)
Theorem load_read_errors st w :
  (fault w (Read (filePath st)) = Some "ENOENT"
   ∨ (fault w (Read (filePath st)) = None ∧ files w !! filePath st = None) →
   load st w = (Ok tt, mkStore [] (filePath st), w))
  ∧ (∀ code,
       fault w (Read (filePath st)) = Some code →
       code ≠ "ENOENT" →
       load st w = (Throw (ErrnoException code), st, w)).
Proof.
  split.
  - intros [Hf|[Hf Hnone]].
    + run_load. by rewrite Hf.
    + by apply load_missing.
  - intros code Hf Hne. by apply load_read_failure.
Qed.

Lemma load_read_errors_witness :
  (fault demo_world (Read (filePath demo_store)) = None
   ∧ files demo_world !! filePath demo_store = None
   ∧ load demo_store demo_world = (Ok tt, mkStore [] "habits.json", demo_world))
  ∧ fault denied_world (Read (filePath demo_store)) = Some "EACCES"
  ∧ load demo_store denied_world
    = (Throw (ErrnoException "EACCES"), demo_store, denied_world).
Proof.
  destruct (load_read_errors demo_store demo_world) as [Hmissing _].
  destruct (load_read_errors demo_store denied_world) as [_ Hother].
  split_and!; [reflexivity | reflexivity | | reflexivity |].
  - apply Hmissing. right. by split.
  - by apply Hother.
Defined.

(** X9.  A backing file that exists and can be read, whose content is not
    valid JSON, or is JSON other than [null] without an array under
    [habits]: [load] fails with an [Error] whose message starts with
    "Corrupt data file at" and names the path; the mapping and the world
    stay as they were. *)
Theorem load_corrupt_names_path st w c :
  fault w (Read (filePath st)) = None →
  files w !! filePath st = Some c →
  (∃ raw, c = Unparsable raw)
  ∨ (∃ data, c = Parsable data ∧ data ≠ JNull
             ∧ ∀ ps items, data = JObj ps → assoc "habits" ps ≠ Some (JArr items)) →
  ∃ rest,
    load st w = (Throw (Error ("Corrupt data file at " +:+ filePath st +:+ rest)),
                 st, w)
    ∧ names_path ("Corrupt data file at " +:+ filePath st +:+ rest) (filePath st).
Proof.
  intros Hf Hc [[raw ->]|(data & -> & Hnull & Hno)].
  - exists ": invalid JSON". split; [by apply (load_invalid_json st w raw)|].
    by eexists _, _.
  - eexists. split; [by apply (load_not_array_non_null st w data)|].
    by eexists _, _.
Qed.

Lemma load_corrupt_names_path_witness :
  fault (file_world (Parsable (JObj [("habits", JStr "bad")])))
        (Read (filePath demo_store)) = None
  ∧ ∃ rest,
      load demo_store (file_world (Parsable (JObj [("habits", JStr "bad")])))
      = (Throw (Error ("Corrupt data file at " +:+ filePath demo_store +:+ rest)),
         demo_store, file_world (Parsable (JObj [("habits", JStr "bad")])))
      ∧ names_path ("Corrupt data file at " +:+ filePath demo_store +:+ rest)
                   (filePath demo_store).
Proof.
  split; [reflexivity|].
  apply (load_corrupt_names_path demo_store
           (file_world (Parsable (JObj [("habits", JStr "bad")])))
           (Parsable (JObj [("habits", JStr "bad")])));
    [reflexivity | by vm_compute|].
  right. eexists. split_and!; [done | done|].
  intros ps items [= <-]. by vm_compute.
Defined.

Lemma existsb_is_null items : JNull ∈ items → existsb is_null items = true.
Proof.
  induction items as [|v items IH]; [by intros ?%elem_of_nil|].
  intros [<-|Hin]%elem_of_cons; [done|].
  cbn. rewrite IH by done. by destruct (is_null v).
Qed.

(** X10.  A document whose [habits] array has a [null] element: [load]
    throws the [TypeError] of reading [id] off [null], not a corrupt data
    file error, whatever the other elements are; the mapping and the world
    stay as they were. *)
Theorem load_null_element st w ps items :
  fault w (Read (filePath st)) = None →
  files w !! filePath st = Some (Parsable (JObj ps)) →
  assoc "habits" ps = Some (JArr items) →
  JNull ∈ items →
  load st w
  = (Throw (TypeError "Cannot read properties of null (reading 'id')"), st, w).
Proof.
  intros Hf Hdoc Hhabits Hnull. run_load. rewrite Hf, Hdoc. cbn.
  rewrite Hhabits. cbn. unfold habits_entries.
  by rewrite (existsb_is_null items Hnull).
Qed.

Lemma load_null_element_witness :
  fault (file_world (Parsable (JObj [("habits", JArr [JNull])])))
        (Read (filePath demo_store)) = None
  ∧ JNull ∈ [JNull]
  ∧ load demo_store (file_world (Parsable (JObj [("habits", JArr [JNull])])))
    = (Throw (TypeError "Cannot read properties of null (reading 'id')"),
       demo_store, file_world (Parsable (JObj [("habits", JArr [JNull])]))).
Proof.
  assert (JNull ∈ [JNull]) as Hin by left.
  split_and!; [reflexivity | done|].
  by apply (load_null_element demo_store
              (file_world (Parsable (JObj [("habits", JArr [JNull])])))
              [("habits", JArr [JNull])] [JNull]).
Defined.

(** ** The order of the mapping *)

Lemma keys_foldl_first_ids seen (acc : JsMap.t HabitData) hs :
  (∀ k, k ∈ seen ↔ k ∈ JsMap.keys acc) →
  JsMap.keys (foldl (fun m h => JsMap.set (id h) h m) acc hs)
  = JsMap.keys acc ++ first_ids seen hs.
Proof.
  revert seen acc. induction hs as [|h hs IH]; intros seen acc Hseen.
  - cbn. by rewrite app_nil_r.
  - cbn [foldl first_ids].
    destruct (decide (id h ∈ seen)) as [Hin|Hnin].
    + rewrite (IH seen).
      * rewrite keys_set, decide_True; [done | by apply Hseen].
      * intros k. rewrite keys_set, decide_True; [done | by apply Hseen].
    + rewrite (IH (id h :: seen)).
      * rewrite keys_set, decide_False by (by rewrite <-Hseen).
        by rewrite <-app_assoc.
      * intros k. rewrite keys_set, decide_False by (by rewrite <-Hseen).
        rewrite elem_of_cons, elem_of_app, list_elem_of_singleton, Hseen.
        tauto.
Qed.

(** X11.  After a load of a persisted sequence of records, the mapping
    lists the ids in the order in which they first occur in the sequence
    (a record with an id seen before takes the place of the earlier one, it
    does not move to the end); when no id occurs twice, the mapping holds
    the records of the sequence, in the order of the sequence. *)
Theorem load_key_order hs st w :
  fault w (Read (filePath st)) = None →
  files w !! filePath st = Some (JSON_stringify (HabitsData_to_json hs)) →
  ∃ st' w',
    load st w = (Ok tt, st', w')
    ∧ JsMap.keys (habits st') = first_ids [] hs
    ∧ (NoDup (id <$> hs) →
       snapshot w' <$> JsMap.values (habits st') = hs).
Proof.
  intros Hread Hdoc.
  destruct (load_document hs st w Hread Hdoc) as (es & w' & Hload & _ & _ & Hview).
  exists (mkStore (JsMap.of_entries es) (filePath st)), w'.
  assert (view w' (JsMap.of_entries es)
          = JsMap.of_entries ((fun h => (id h, h)) <$> hs)) as Hof.
  { unfold view at 1. rewrite <-of_entries_fmap. fold (view w' es).
    by rewrite Hview. }
  split_and!; [done | |]; cbn [habits].
  - rewrite <-(view_keys w'), Hof. unfold JsMap.of_entries.
    rewrite foldl_fmap.
    apply (keys_foldl_first_ids [] [] hs).
    intros k. split; by intros ?%elem_of_nil.
  - intros Hnd. rewrite <-values_view, Hof, of_entries_fresh.
    + unfold JsMap.values. rewrite <-list_fmap_compose. apply list_fmap_id.
    + by rewrite <-list_fmap_compose.
Qed.

Lemma load_key_order_witness :
  fault disk_world (Read (filePath new_store)) = None
  ∧ ∃ st' w',
      load new_store disk_world = (Ok tt, st', w')
      ∧ JsMap.keys (habits st') = ["abc"; "xyz"]
      ∧ (NoDup (id <$> demo_records) →
         snapshot w' <$> JsMap.values (habits st') = demo_records).
Proof.
  split; [reflexivity|].
  apply (load_key_order demo_records new_store disk_world);
    [reflexivity | by vm_compute].
Defined.

(** X12.  In every store that calls can lead to from a new one, no two
    records have the same id, and the record that [getHabit] returns for
    an id has that id. *)
Theorem reachable_ids st :
  reachable st →
  NoDup (id <$> JsMap.values (habits st))
  ∧ ∀ i h w, outcome (getHabit i st w) = Ok (Some h) → id h = i.
Proof.
  intros [Hnd Hkeyed]%reachable_consistent. split.
  - assert (id <$> JsMap.values (habits st) = JsMap.keys (habits st)) as ->; [|done].
    unfold JsMap.values, JsMap.keys. rewrite <-list_fmap_compose.
    apply list_fmap_ext. intros n [k h] Hn. cbn.
    apply (proj1 (keyed_elem _) Hkeyed). by apply list_elem_of_lookup_2 in Hn.
  - intros i h w. unfold getHabit, bind, this_habits, ret, outcome. cbn.
    intros [= Hget]. apply (proj1 (keyed_elem _) Hkeyed).
    by apply get_Some_elem.
Qed.

Lemma reachable_ids_witness :
  reachable (store_after (exec (CallAddHabit twice_attrs) new_store twice_world))
  ∧ NoDup (id <$> JsMap.values
             (habits (store_after
                        (exec (CallAddHabit twice_attrs) new_store twice_world))))
  ∧ ∀ i h w,
      outcome (getHabit i
                 (store_after (exec (CallAddHabit twice_attrs) new_store twice_world))
                 w) = Ok (Some h) →
      id h = i.
Proof.
  assert (reachable
            (store_after (exec (CallAddHabit twice_attrs) new_store twice_world)))
    as Hreach by (apply reachable_exec, reachable_new).
  split; [done|]. by apply reachable_ids.
Defined.

Lemma keys_delete {V} i (m : JsMap.t V) :
  JsMap.keys (JsMap.delete i m) = filter (fun k => k ≠ i) (JsMap.keys m).
Proof.
  unfold JsMap.keys. induction m as [|[k v] m IH]; [done|].
  cbn [JsMap.delete]. rewrite fmap_cons, filter_cons. cbn [fst].
  destruct (decide (k = i)) as [->|Hne].
  - by rewrite decide_False by (by intros ?).
  - by rewrite decide_True, fmap_cons, IH by done.
Qed.

Lemma delete_absent {V} i (m : JsMap.t V) :
  JsMap.get i m = None → JsMap.delete i m = m.
Proof.
  induction m as [|[k v] m IH]; [done|]. cbn.
  destruct (decide (k = i)); [done|]. intros Hget. by rewrite IH.
Qed.

Lemma length_delete {V} i (m : JsMap.t V) :
  NoDup (JsMap.keys m) → is_Some (JsMap.get i m) →
  S (length (JsMap.delete i m)) = length m.
Proof.
  unfold JsMap.keys. induction m as [|[k v] m IH]; [by intros _ [? ?]|].
  rewrite fmap_cons, NoDup_cons. cbn. intros [Hk Hnd].
  destruct (decide (k = i)) as [->|Hne].
  - intros _. rewrite delete_absent; [done|]. by apply get_None.
  - intros Hsome. cbn. by rewrite IH.
Qed.

Lemma delete_snoc {V} i (v : V) (m : JsMap.t V) :
  JsMap.get i m = None → JsMap.delete i (m ++ [(i, v)]) = m.
Proof.
  induction m as [|[k v'] m IH]; cbn.
  - intros _. by rewrite decide_True.
  - destruct (decide (k = i)); [done|]. intros Hget. by rewrite IH.
Qed.

Lemma set_set {V} i (v : V) (m : JsMap.t V) :
  JsMap.set i v (JsMap.set i v m) = JsMap.set i v m.
Proof.
  induction m as [|[k v'] m IH]; cbn.
  - by rewrite decide_True.
  - destruct (decide (k = i)) as [->|Hne]; cbn.
    + by rewrite decide_True.
    + by rewrite decide_False, IH.
Qed.

(** ** What a call leaves alone *)

Lemma addHabit_deref attrs st w r :
  deref (world_after (addHabit attrs st w)) r = deref w r.
Proof.
  destruct (addHabit_unfold attrs st w)
    as (h & w1 & -> & _ & _ & _ & _ & _ & Hcs & _).
  rewrite save_then. cbn [world_after snd]. unfold deref. rewrite save_arrays.
  destruct (attrs_completions attrs) as [c|]; destruct Hcs as [Hc ->]; [done|].
  destruct (decide (completions h = r)) as [<-|Hne].
  - by rewrite lookup_insert_eq, Hc.
  - by rewrite lookup_insert_ne.
Qed.

Lemma addHabit_habits attrs st w :
  ∃ h, habits (store_after (addHabit attrs st w))
       = JsMap.set (id_for attrs w) h (habits st)
       ∧ id h = id_for attrs w.
Proof.
  destruct (addHabit_unfold attrs st w) as (h & w1 & -> & Hid & _).
  exists h. rewrite save_then. cbn. unfold id_for. by rewrite <-Hid.
Qed.

(** X13.  [addHabit], [updateHabit] and [deleteHabit] touch one id only:
    whether the write goes through or not, the record stored under any
    other id is the same as before, and every array holds what it held, so
    every other record reads as before. *)
Theorem other_habits_untouched st w j :
  (∀ attrs,
     id_for attrs w ≠ j →
     let x := addHabit attrs st w in
     JsMap.get j (habits (store_after x)) = JsMap.get j (habits st)
     ∧ ∀ r, deref (world_after x) r = deref w r)
  ∧ (∀ i patch,
       i ≠ j →
       let x := updateHabit i patch st w in
       JsMap.get j (habits (store_after x)) = JsMap.get j (habits st)
       ∧ ∀ r, deref (world_after x) r = deref w r)
  ∧ (∀ i,
       i ≠ j →
       let x := deleteHabit i st w in
       JsMap.get j (habits (store_after x)) = JsMap.get j (habits st)
       ∧ ∀ r, deref (world_after x) r = deref w r).
Proof.
  split_and!.
  - intros attrs Hne. cbn zeta. split; [|intros r; apply addHabit_deref].
    destruct (addHabit_habits attrs st w) as (h & -> & _).
    by apply get_set_ne.
  - intros i patch Hne. cbn zeta.
    destruct (JsMap.get i (habits st)) as [existing|] eqn:Hget.
    + rewrite (updateHabit_present i patch st w existing Hget), save_then.
      cbn [store_after world_after fst snd habits].
      split; [by apply get_set_ne|]. intros r. unfold deref. by rewrite save_arrays.
    + by rewrite updateHabit_absent.
  - intros i Hne. cbn zeta.
    destruct (JsMap.get i (habits st)) as [h|] eqn:Hget.
    + rewrite deleteHabit_present, save_then by (by rewrite Hget).
      cbn [store_after world_after fst snd habits].
      split; [by apply get_delete_ne|]. intros r. unfold deref. by rewrite save_arrays.
    + by rewrite deleteHabit_absent.
Qed.

Lemma other_habits_untouched_witness :
  "xyz" ≠ "abc"
  ∧ (let x := updateHabit "xyz" demo_patch pair_store demo_world in
     JsMap.get "abc" (habits (store_after x)) = JsMap.get "abc" (habits pair_store)
     ∧ ∀ r, deref (world_after x) r = deref demo_world r)
  ∧ (let x := deleteHabit "xyz" pair_store demo_world in
     JsMap.get "abc" (habits (store_after x)) = JsMap.get "abc" (habits pair_store)
     ∧ ∀ r, deref (world_after x) r = deref demo_world r).
Proof.
  assert ("xyz" ≠ "abc") as Hne by done.
  destruct (other_habits_untouched pair_store demo_world "abc") as (_ & Hupd & Hdel).
  split_and!; [done | by apply Hupd | by apply Hdel].
Defined.

(** X14.  [addHabit] with an id that the mapping does not hold puts the
    new record last: the records that were there keep their order, and
    [getAllHabits] lists one record more. *)
Theorem addHabit_appends attrs st w :
  JsMap.get (id_for attrs w) (habits st) = None →
  let x := addHabit attrs st w in
  ∃ h,
    habits (store_after x) = habits st ++ [(id_for attrs w, h)]
    ∧ id h = id_for attrs w
    ∧ JsMap.values (habits (store_after x)) = JsMap.values (habits st) ++ [h].
Proof.
  intros Hnew. cbn zeta.
  destruct (addHabit_habits attrs st w) as (h & -> & Hid).
  exists h. rewrite set_absent by (by apply get_None).
  split_and!; [done | done|]. unfold JsMap.values. by rewrite fmap_app.
Qed.

Lemma addHabit_appends_witness :
  JsMap.get (id_for demo_attrs demo_world) (habits demo_store) = None
  ∧ let x := addHabit demo_attrs demo_store demo_world in
    ∃ h,
      habits (store_after x) = habits demo_store ++ [(id_for demo_attrs demo_world, h)]
      ∧ id h = id_for demo_attrs demo_world
      ∧ JsMap.values (habits (store_after x))
        = JsMap.values (habits demo_store) ++ [h].
Proof.
  assert (JsMap.get (id_for demo_attrs demo_world) (habits demo_store) = None)
    as Hnew by (by vm_compute).
  split; [done|]. by apply (addHabit_appends demo_attrs demo_store demo_world).
Defined.

(** X15.  [updateHabit] neither adds, removes nor moves an id: whatever
    the id, the patch and the outcome, the mapping lists the same ids in
    the same order as before. *)
Theorem updateHabit_keeps_order i patch st w :
  JsMap.keys (habits (store_after (updateHabit i patch st w)))
  = JsMap.keys (habits st).
Proof.
  destruct (JsMap.get i (habits st)) as [existing|] eqn:Hget.
  - rewrite (updateHabit_present i patch st w existing Hget), save_then.
    cbn [store_after fst snd habits]. rewrite keys_set, decide_True; [done|].
    apply dec_stable. intros Hnin. apply get_None in Hnin. by rewrite Hget in Hnin.
  - by rewrite updateHabit_absent.
Qed.

(** X16.  [deleteHabit] removes the given id and nothing else: whatever
    the outcome, the mapping lists the other ids, in the order they had;
    in a consistent mapping that held the id, exactly one record less. *)
Theorem deleteHabit_removes_only i st w :
  let x := deleteHabit i st w in
  JsMap.keys (habits (store_after x))
  = filter (fun k => k ≠ i) (JsMap.keys (habits st))
  ∧ (consistent (habits st) → is_Some (JsMap.get i (habits st)) →
     S (length (habits (store_after x))) = length (habits st)).
Proof.
  cbn zeta. destruct (JsMap.get i (habits st)) as [h|] eqn:Hget.
  - rewrite deleteHabit_present, save_then by (by rewrite Hget).
    cbn [store_after fst snd habits]. split; [apply keys_delete|].
    intros [Hnd _] _. apply length_delete; [done | by rewrite Hget].
  - rewrite deleteHabit_absent by done. cbn [store_after fst snd].
    split; [|by intros _ [? ?]].
    by rewrite <-keys_delete, delete_absent.
Qed.

Lemma deleteHabit_removes_only_witness :
  consistent (habits pair_store)
  ∧ is_Some (JsMap.get "abc" (habits pair_store))
  ∧ (let x := deleteHabit "abc" pair_store demo_world in
     JsMap.keys (habits (store_after x)) = ["xyz"]
     ∧ S (length (habits (store_after x))) = length (habits pair_store)).
Proof.
  assert (consistent (habits pair_store)) as Hc by compute_done.
  assert (is_Some (JsMap.get "abc" (habits pair_store))) as Hsome by (by eexists).
  destruct (deleteHabit_removes_only "abc" pair_store demo_world) as [Hkeys Hlen].
  split_and!; [done | done|]. cbn zeta.
  split; [exact Hkeys | by apply Hlen].
Defined.

(** X17.  [addHabit] with an id that the mapping does not hold, followed
    by [deleteHabit] of that id, gives back the mapping as it was, in the
    same order, whether the writes go through or not. *)
Theorem add_then_delete attrs st w :
  JsMap.get (id_for attrs w) (habits st) = None →
  let x := addHabit attrs st w in
  let y := deleteHabit (id_for attrs w) (store_after x) (world_after x) in
  habits (store_after y) = habits st.
Proof.
  intros Hnew. cbn zeta.
  destruct (addHabit_habits attrs st w) as (h & Hset & _).
  rewrite deleteHabit_present, save_then by (rewrite Hset, get_set_eq; by eexists).
  cbn [store_after fst snd habits]. rewrite Hset.
  rewrite set_absent by (by apply get_None). by apply delete_snoc.
Qed.

Lemma add_then_delete_witness :
  JsMap.get (id_for demo_attrs demo_world) (habits demo_store) = None
  ∧ let x := addHabit demo_attrs demo_store demo_world in
    let y := deleteHabit (id_for demo_attrs demo_world)
               (store_after x) (world_after x) in
    habits (store_after y) = habits demo_store.
Proof.
  assert (JsMap.get (id_for demo_attrs demo_world) (habits demo_store) = None)
    as Hnew by (by vm_compute).
  split; [done|]. by apply (add_then_delete demo_attrs demo_store demo_world).
Defined.

(** ** Calls repeated *)

Lemma merge_again existing patch i :
  merge (merge existing patch i) patch i = merge existing patch i.
Proof.
  destruct patch as [pi [n|] [d|] [f|] [c|] [t|]]; reflexivity.
Qed.

Lemma saved_again st w : saved st (saved st w) = saved st w.
Proof.
  unfold saved, with_files, document. cbn. f_equal.
  rewrite delete_insert_ne by (apply append_tmp_ne).
  by rewrite delete_delete_eq, insert_insert_eq.
Qed.

(** X18.  [updateHabit] with the same patch twice does what it does once:
    on a stored id, with a storage that accepts the write, the second call
    returns the same record and leaves the mapping, the arrays and the
    files as the first call left them. *)
Theorem updateHabit_again i patch st w existing :
  JsMap.get i (habits st) = Some existing →
  writable (filePath st) w →
  let x1 := updateHabit i patch st w in
  let x2 := updateHabit i patch (store_after x1) (world_after x1) in
  x1 = (Ok (merge existing patch i),
        mkStore (JsMap.set i (merge existing patch i) (habits st)) (filePath st),
        world_after x1)
  ∧ x2 = x1.
Proof.
  intros Hget Hw. cbn zeta.
  set (u := merge existing patch i).
  set (st' := mkStore (JsMap.set i u (habits st)) (filePath st)).
  assert (updateHabit i patch st w = (Ok u, st', saved st' w)) as ->.
  { rewrite (updateHabit_present i patch st w existing Hget).
    by apply save_then_ok. }
  split; [done|]. cbn [store_after world_after fst snd].
  rewrite (updateHabit_present i patch st' (saved st' w) u) by apply get_set_eq.
  unfold u. rewrite merge_again. fold u. cbn [habits st' filePath].
  rewrite set_set. fold st'.
  rewrite save_then_ok by done. by rewrite saved_again.
Qed.

Lemma updateHabit_again_witness :
  JsMap.get "abc" (habits demo_store) = Some demo_habit
  ∧ writable (filePath demo_store) demo_world
  ∧ let x1 := updateHabit "abc" demo_patch demo_store demo_world in
    let x2 := updateHabit "abc" demo_patch (store_after x1) (world_after x1) in
    x1 = (Ok (merge demo_habit demo_patch "abc"),
          mkStore (JsMap.set "abc" (merge demo_habit demo_patch "abc")
                     (habits demo_store)) (filePath demo_store),
          world_after x1)
    ∧ x2 = x1.
Proof.
  assert (JsMap.get "abc" (habits demo_store) = Some demo_habit) as Hget
    by (by vm_compute).
  assert (writable (filePath demo_store) demo_world) as Hw by (by vm_compute).
  split_and!; [done | done|].
  by apply (updateHabit_again "abc" demo_patch demo_store demo_world demo_habit).
Defined.

(** ** [logCompletion] and the arrays *)

Lemma logCompletion_new_run i date st w habit :
  JsMap.get i (habits st) = Some habit →
  date ∉ deref w (completions habit) →
  let x := logCompletion i date st w in
  store_after x = st
  ∧ arrays (world_after x)
    = <[completions habit := deref w (completions habit) ++ [date]]> (arrays w).
Proof.
  intros Hget Hnin. cbn zeta.
  rewrite (logCompletion_new i date st w habit Hget Hnin).
  by rewrite save_store, save_arrays.
Qed.

(** X19.  [logCompletion] of a new date appends it to the array that the
    record holds: whether the write goes through or not, that array has
    the date at its end, and so has every record of the mapping that holds
    the same array; every other array holds what it held. *)
Theorem logCompletion_shared_array i date st w habit :
  JsMap.get i (habits st) = Some habit →
  date ∉ deref w (completions habit) →
  let x := logCompletion i date st w in
  (∀ r, deref (world_after x) r
        = if decide (r = completions habit) then deref w r ++ [date]
          else deref w r)
  ∧ (∀ j other,
       JsMap.get j (habits (store_after x)) = Some other →
       completions other = completions habit →
       completions (snapshot (world_after x) other)
       = completions (snapshot w other) ++ [date]).
Proof.
  intros Hget Hnin.
  destruct (logCompletion_new_run i date st w habit Hget Hnin) as [Hst Harr].
  cbn zeta in *.
  assert (∀ r, deref (world_after (logCompletion i date st w)) r
               = if decide (r = completions habit) then deref w r ++ [date]
                 else deref w r) as Hderef.
  { intros r. unfold deref at 1. rewrite Harr.
    destruct (decide (r = completions habit)) as [->|Hne].
    - by rewrite lookup_insert_eq.
    - by rewrite lookup_insert_ne. }
  split; [done|].
  intros j other _ Hsame. cbn. by rewrite Hderef, Hsame, decide_True.
Qed.

Lemma logCompletion_shared_array_witness :
  JsMap.get "abc" (habits pair_store) = Some demo_habit
  ∧ ("2024-03-15" ∉ deref demo_world (completions demo_habit))
  ∧ let x := logCompletion "abc" "2024-03-15" pair_store demo_world in
    (∀ r, deref (world_after x) r
          = if decide (r = completions demo_habit)
            then deref demo_world r ++ ["2024-03-15"]
            else deref demo_world r)
    ∧ (∀ j other,
         JsMap.get j (habits (store_after x)) = Some other →
         completions other = completions demo_habit →
         completions (snapshot (world_after x) other)
         = completions (snapshot demo_world other) ++ ["2024-03-15"]).
Proof.
  assert (JsMap.get "abc" (habits pair_store) = Some demo_habit) as Hget
    by (by vm_compute).
  assert ("2024-03-15" ∉ deref demo_world (completions demo_habit)) as Hnin
    by compute_done.
  split_and!; [done | done|].
  by apply (logCompletion_shared_array "abc" "2024-03-15" pair_store demo_world
              demo_habit).
Defined.

(** X20.  A [logCompletion] whose write the storage refused is not made up
    for by calling it again: the first call throws the storage's error with
    the date already in the array, so the second call, in whatever state
    the storage then is, finds the date, returns without an error and
    writes nothing; the backing file still lacks the date. *)
Theorem logCompletion_retry_writes_nothing i date st w habit code :
  JsMap.get i (habits st) = Some habit →
  date ∉ deref w (completions habit) →
  save_fault (filePath st) w = Some code →
  let x1 := logCompletion i date st w in
  outcome x1 = Throw (ErrnoException code)
  ∧ store_after x1 = st
  ∧ date ∈ deref (world_after x1) (completions habit)
  ∧ files (world_after x1) !! filePath st = files w !! filePath st
  ∧ ∀ w2,
      arrays w2 = arrays (world_after x1) →
      logCompletion i date st w2 = (Ok tt, st, w2).
Proof.
  intros Hget Hnin Hfault. cbn zeta.
  set (w1 := with_arrays (<[completions habit :=
                              deref w (completions habit) ++ [date]]> (arrays w)) w).
  destruct (save_fails st w1 code Hfault) as (w' & Hsave & Harr & _ & Hkeep).
  rewrite (logCompletion_new i date st w habit Hget Hnin). fold w1.
  rewrite Hsave. cbn [outcome store_after world_after fst snd].
  assert (∀ w2, arrays w2 = arrays w' → date ∈ deref w2 (completions habit)) as Hin.
  { intros w2 Hw2. unfold deref. rewrite Hw2, Harr. cbn.
    rewrite lookup_insert_eq. cbn. apply elem_of_app. right. left. }
  split_and!; [done | done | by apply Hin | |].
  - rewrite Hkeep; [done|]. intros Heq. by apply (append_tmp_ne (filePath st)).
  - intros w2 Hw2. apply (logCompletion_logged i date st w2 habit Hget).
    by apply Hin.
Qed.

Lemma logCompletion_retry_writes_nothing_witness :
  JsMap.get "abc" (habits demo_store) = Some demo_habit
  ∧ ("2024-03-15" ∉ deref full_world (completions demo_habit))
  ∧ save_fault (filePath demo_store) full_world = Some "ENOSPC"
  ∧ let x1 := logCompletion "abc" "2024-03-15" demo_store full_world in
    outcome x1 = Throw (ErrnoException "ENOSPC")
    ∧ store_after x1 = demo_store
    ∧ "2024-03-15" ∈ deref (world_after x1) (completions demo_habit)
    ∧ files (world_after x1) !! filePath demo_store
      = files full_world !! filePath demo_store
    ∧ ∀ w2,
        arrays w2 = arrays (world_after x1) →
        logCompletion "abc" "2024-03-15" demo_store w2 = (Ok tt, demo_store, w2).
Proof.
  assert (JsMap.get "abc" (habits demo_store) = Some demo_habit) as Hget
    by (by vm_compute).
  assert ("2024-03-15" ∉ deref full_world (completions demo_habit)) as Hnin
    by compute_done.
  assert (save_fault (filePath demo_store) full_world = Some "ENOSPC") as Hfault
    by (by vm_compute).
  split_and!; [done | done | done|].
  by apply (logCompletion_retry_writes_nothing "abc" "2024-03-15" demo_store
              full_world demo_habit "ENOSPC").
Defined.
